(** * Butterfly subdivision: a shallow embedding of [application.cpp]

    The development follows the three functions of the source file:
    [Application::vertex_rule], [Application::edge_rule] and
    [Application::butterfly_subdivision].

    Conventions of the embedding.
    - A C++ pointer is an optional index into the arena of its pointee type;
      [None] is [nullptr].  Dereferencing a null or dangling pointer has no
      defined behaviour in C++: the pure rules return [None] there, and the
      driver stops in the outcome [Undef].
    - The [float] components of [glm::vec3] and the [double] intermediate
      values of [edge_rule] are IEEE 754 binary32 and binary64 numbers, with
      the operations of the standard library's [SpecFloat] (round to nearest,
      ties to even; one NaN, without payload). *)

From Stdlib Require Import QArith SpecFloat.
From stdpp Require Import gmap list fin_maps.

(** ** Floating-point numbers *)

Module ieee754.

(** Both formats are carried by [spec_float]: a signed zero, a signed
    infinity, NaN, or a finite number [(-1)^s * m * 2^e].  The operations
    below fix the format in which each result is rounded: 24 bits of
    precision and exponents below 128 for [float], 53 and 1024 for
    [double]. *)
Definition float : Type := spec_float.
Definition double : Type := spec_float.

(** Rounding a number to the format [(prec, emax)]. *)
Definition round (prec emax : Z) (a : spec_float) : spec_float :=
  match a with
  | S754_finite s m e => binary_normalize prec emax (cond_Zopp s (Zpos m)) e s
  | _ => a
  end.

(** [a * b] on two [float]s. *)
Definition float_mul (a b : float) : float := SFmul 24 128 a b.

(** [-a] on a [float]. *)
Definition float_neg (a : float) : float := SFopp a.

(** The conversion of an [int] to [float]. *)
Definition float_of_int (n : Z) : float := binary_normalize 24 128 n 0 false.

(** The conversion of a [float] operand to [double]; it is exact. *)
Definition double_of_float (a : float) : double := round 53 1024 a.

(** [a * b] and [a + b] on two [double]s. *)
Definition double_mul (a b : double) : double := SFmul 53 1024 a b.
Definition double_add (a b : double) : double := SFadd 53 1024 a b.

(** The [double] literal [0.5]. *)
Definition double_half : double := binary_normalize 53 1024 1 (-1) false.

(** The cast [(float)a] of a [double]. *)
Definition float_of_double (a : double) : float := round 24 128 a.

(** The [float] [2^e]. *)
Definition pow2 (e : Z) : float := binary_normalize 24 128 1 e false.

Definition zero : float := S754_zero false.

(** Neither an infinity nor NaN. *)
Definition finite (a : spec_float) : bool :=
  match a with
  | S754_zero _ | S754_finite _ _ _ => true
  | S754_infinity _ | S754_nan => false
  end.

Definition is_zero (a : spec_float) : bool :=
  match a with S754_zero _ => true | _ => false end.

(** The same value, up to the sign of a zero. *)
Definition same_number (a b : spec_float) : Prop :=
  a = b \/ (is_zero a = true /\ is_zero b = true).

(** The rational number that a finite value stands for. *)
Definition value (a : spec_float) : option Q :=
  match a with
  | S754_zero _ => Some 0%Q
  | S754_finite s m e => Some (inject_Z (cond_Zopp s (Zpos m)) * Qpower 2 e)%Q
  | S754_infinity _ | S754_nan => None
  end.

End ieee754.

(** ** The arithmetic of the edge rule *)

(** The operations that the three assignments of [edge_rule] use, on the two
    number types involved: the type of the coordinates and of [w], and the
    wider type in which the sum is formed. *)
Record Arithmetic : Type := {
  single : Type;
  wide : Type;
  mul : single -> single -> single;   (* [*] on two coordinates *)
  opp : single -> single;             (* unary [-] *)
  two : single;                       (* the literal [2], as a coordinate *)
  widen : single -> wide;             (* the promotion of an operand *)
  half : wide;                        (* the literal [0.5] *)
  wide_mul : wide -> wide -> wide;    (* [*] in the wider type *)
  wide_add : wide -> wide -> wide;    (* [+] in the wider type *)
  narrow : wide -> single             (* the cast of the sum *)
}.

(** The arithmetic of the source: [float] coordinates, [double] sum. *)
Definition ieee : Arithmetic :=
  {| single := ieee754.float;
     wide := ieee754.double;
     mul := ieee754.float_mul;
     opp := ieee754.float_neg;
     two := ieee754.float_of_int 2;
     widen := ieee754.double_of_float;
     half := ieee754.double_half;
     wide_mul := ieee754.double_mul;
     wide_add := ieee754.double_add;
     narrow := ieee754.float_of_double |}.

(** The same operations without rounding, on rational numbers. *)
Definition exact : Arithmetic :=
  {| single := Q;
     wide := Q;
     mul := Qmult;
     opp := Qopp;
     two := 2%Q;
     widen := fun q => q;
     half := 0.5%Q;
     wide_mul := Qmult;
     wide_add := Qplus;
     narrow := fun q => q |}.

Section Expression.

Variable A : Arithmetic.

Local Notation "a ⊙ b" := (mul A a b) (at level 40, left associativity).
Local Notation "a ⊗ b" := (wide_mul A a b) (at level 40, left associativity).
Local Notation "a ⊕ b" := (wide_add A a b) (at level 50, left associativity).
Local Notation "⊖ a" := (opp A a) (at level 35, right associativity).
Local Abbreviation double := (widen A).

(** The right-hand side of one assignment to [result]:
    [(float)(x0 * 0.5 + x1 * 0.5 + x2 * 2 * w + x3 * 2 * w
             + x4 * -w + x5 * -w + x6 * -w + x7 * -w)].
    The products with [0.5], a [double] literal, are formed in the wider
    type; the products with [2], [w] and [-w] in the type of the
    coordinates; the sum, from left to right, in the wider type. *)
Definition stencil_expression (w x0 x1 x2 x3 x4 x5 x6 x7 : single A)
    : single A :=
  narrow A
    (double x0 ⊗ half A ⊕ double x1 ⊗ half A ⊕
     double (x2 ⊙ two A ⊙ w) ⊕ double (x3 ⊙ two A ⊙ w) ⊕
     double (x4 ⊙ ⊖w) ⊕ double (x5 ⊙ ⊖w) ⊕
     double (x6 ⊙ ⊖w) ⊕ double (x7 ⊙ ⊖w)).

End Expression.

(** ** Positions *)

Module glm.

Record vec3 : Type := Vec3 { x : ieee754.float; y : ieee754.float;
                             z : ieee754.float }.

(** [glm::vec3(0, 0, 0)] *)
Definition zero : vec3 := Vec3 ieee754.zero ieee754.zero ieee754.zero.

(** The same position, up to the signs of zeros. *)
Definition same (a b : vec3) : Prop :=
  ieee754.same_number (x a) (x b) /\ ieee754.same_number (y a) (y b) /\
  ieee754.same_number (z a) (z b).

End glm.

Infix "≃" := glm.same (at level 70, no associativity).

(** ** The half-edge mesh (source side) *)

(** [Vertex*] and [Edge*]: an index into the mesh's arena, or [nullptr].
    The records below have the fields that [application.cpp] reads. *)
Definition ptr : Type := option nat.

Definition nullptr : ptr := None.

Record Vertex : Type := { position : glm.vec3 }.

Record Edge : Type := {
  start : ptr;   (* Vertex* *)
  end_  : ptr;   (* Vertex* ; the field [end] of the source *)
  next  : ptr;   (* Edge* *)
  prev  : ptr;   (* Edge* *)
  twin  : ptr    (* Edge* *)
}.

Record Face : Type := { edge : ptr (* Edge* *) }.

Record SubdivisionTriangleMesh : Type := {
  vertices : list Vertex;
  edges : list Edge;
  faces : list Face
}.

(** [p->...]: reading through a pointer.  [None] when [p] is null or does not
    point into the arena. *)
Definition deref {A : Type} (arena : list A) (p : ptr) : option A :=
  i ← p; arena !! i.

Section Rules.

Variable src_mesh : SubdivisionTriangleMesh.

(** [p->f] for an edge pointer [p] that was itself read through a chain of
    links. *)
Definition arrow (p : option ptr) (f : Edge -> ptr) : option ptr :=
  q ← p; e ← deref (edges src_mesh) q; Some (f e).

Local Notation "p ~> f" := (arrow p f) (at level 40, left associativity).

(** [vertex->position] *)
Definition position_of (vertex : ptr) : option glm.vec3 :=
  position <$> deref (vertices src_mesh) vertex.

(** [Application::vertex_rule] *)
Definition vertex_rule (vertex : ptr) : option glm.vec3 :=
  let result := glm.zero in
  result ← position_of vertex;
  Some result.

(** The first block of [Application::edge_rule]: the eight vertex pointers
    of the stencil, in the order of the array [vertices]. *)
Definition collect (edge : ptr) : option (list ptr) :=
  v0 ← Some edge ~> start;
  v1 ← Some edge ~> end_;
  v2 ← Some edge ~> next ~> end_;
  v3 ← Some edge ~> twin ~> next ~> end_;
  v4 ← Some edge ~> next ~> twin ~> prev ~> start;
  v5 ← Some edge ~> prev ~> twin ~> prev ~> start;
  v6 ← Some edge ~> twin ~> prev ~> twin ~> prev ~> start;
  v7 ← Some edge ~> twin ~> next ~> twin ~> prev ~> start;
  Some [v0; v1; v2; v3; v4; v5; v6; v7].

(** One coordinate [c] of the result: the source's expression over the
    coordinates [c] of the eight positions, in [float] and [double]
    arithmetic. *)
Definition axis (c : glm.vec3 -> ieee754.float) (w : ieee754.float)
    (p0 p1 p2 p3 p4 p5 p6 p7 : glm.vec3) : ieee754.float :=
  stencil_expression ieee w
    (c p0) (c p1) (c p2) (c p3) (c p4) (c p5) (c p6) (c p7).

(** [Application::edge_rule] *)
Definition edge_rule (edge : ptr) (w : ieee754.float) : option glm.vec3 :=
  vs ← collect edge;
  ps ← mapM position_of vs;
  match ps with
  | [p0; p1; p2; p3; p4; p5; p6; p7] =>
      Some (glm.Vec3 (axis glm.x w p0 p1 p2 p3 p4 p5 p6 p7)
                     (axis glm.y w p0 p1 p2 p3 p4 p5 p6 p7)
                     (axis glm.z w p0 p1 p2 p3 p4 p5 p6 p7))
  | _ => None
  end.

End Rules.

(** ** The destination mesh and its builder

    [SubdivisionTriangleMeshBuilder] is declared in [application.hpp];
    [application.cpp] only calls it.  Its state and operations follow the
    specification (sections 3 and 4.2). *)

(** Modelled from the spec: the source key of the builder's mapping, the
    identity of the source entity a destination vertex was made for: a source
    vertex, or an unordered source edge given by its two endpoints. *)
Inductive SrcKey : Type :=
  | KVertex (v : ptr)
  | KEdge (a b : ptr).

Global Instance SrcKey_eq_dec : EqDecision SrcKey.
Proof. solve_decision. Defined.

Global Instance SrcKey_countable : Countable SrcKey.
Proof.
  refine (inj_countable'
            (fun k => match k with
                      | KVertex v => inl v
                      | KEdge a b => inr (a, b)
                      end)
            (fun s => match s with
                      | inl v => KVertex v
                      | inr (a, b) => KEdge a b
                      end) _).
  by intros [].
Defined.

(** The address of a pointer, to order the two endpoints of an edge. *)
Definition addr (p : ptr) : nat := from_option S 0 p.

(** Modelled from the spec: the canonical key of an unordered edge (design
    note: min/max of the two endpoint identities). *)
Definition unordered (a b : ptr) : SrcKey :=
  if decide (addr a ≤ addr b) then KEdge a b else KEdge b a.

(** Modelled from the spec: a vertex of the destination mesh, with its
    position and the back-reference to the source entity that generated
    it. *)
Record DstVertex : Type := { dst_position : glm.vec3; source : SrcKey }.

(** A triangle of the destination mesh: three [Vertex*] of that mesh. *)
Definition Triangle : Type := (ptr * ptr * ptr)%type.

(** Modelled from the spec: the destination [SubdivisionTriangleMesh] while
    it is built, as the vertices and triangles inserted so far. *)
Record DstMesh : Type := {
  dst_vertices : list DstVertex;
  dst_triangles : list Triangle;
  finalized : bool
}.

Definition empty_mesh : DstMesh :=
  {| dst_vertices := []; dst_triangles := []; finalized := false |}.

(** Modelled from the spec: the builder state, the destination mesh under
    construction and the scratch mapping from source keys to the destination
    vertices already created. *)
Record SubdivisionTriangleMeshBuilder : Type := {
  mesh : DstMesh;
  from_src : gmap SrcKey nat
}.

Module Builder.

(** Modelled from the spec: the constructor, over the destination mesh that
    the driver passes, with an empty scratch mapping. *)
Definition make (dst_mesh : DstMesh) : SubdivisionTriangleMeshBuilder :=
  {| mesh := dst_mesh; from_src := ∅ |}.

(** Modelled from the spec: [find_existing(source_key)], the destination
    vertex already created for the key, or "not found" ([nullptr]). *)
Definition find_existing (k : SrcKey) (b : SubdivisionTriangleMeshBuilder)
    : ptr :=
  from_src b !! k.

(** Modelled from the spec: [insert_vertex(position, source_key)] creates a
    destination vertex, records it under the key and returns it; it does
    not re-check that the key is new. *)
Definition insert_vertex (pos : glm.vec3) (k : SrcKey)
    (b : SubdivisionTriangleMeshBuilder)
    : ptr * SubdivisionTriangleMeshBuilder :=
  let i := length (dst_vertices (mesh b)) in
  (Some i,
   {| mesh :=
        {| dst_vertices :=
             dst_vertices (mesh b) ++ [{| dst_position := pos; source := k |}];
           dst_triangles := dst_triangles (mesh b);
           finalized := finalized (mesh b) |};
      from_src := <[k := i]> (from_src b) |}).

(** Modelled from the spec: [insert_triangle(a, b, c)] records a face over
    three destination vertices, in the given winding order. *)
Definition insert_triangle (A B C : ptr) (b : SubdivisionTriangleMeshBuilder)
    : SubdivisionTriangleMeshBuilder :=
  {| mesh :=
       {| dst_vertices := dst_vertices (mesh b);
          dst_triangles := dst_triangles (mesh b) ++ [(A, B, C)];
          finalized := finalized (mesh b) |};
     from_src := from_src b |}.

(** Modelled from the spec: the three edges of a triangle, each between
    two of its vertices. *)
Definition triangle_edges (t : Triangle) : list (ptr * ptr) :=
  [ (t.1.1, t.1.2); (t.1.2, t.2); (t.2, t.1.1) ].

(** Modelled from the spec: the triangles that share the edge between the
    two vertices [e.1] and [e.2], in either direction. *)
Definition sharing (ts : list Triangle) (e : ptr * ptr) : list Triangle :=
  filter (fun t => e ∈ triangle_edges t \/ (e.2, e.1) ∈ triangle_edges t) ts.

(** Modelled from the spec: whether [finalize()] can pair the triangles up:
    no edge is shared by more than 2 triangles, and in a mesh expected to be
    closed no edge remains unmatched. *)
Definition pairable (expect_closed : bool) (ts : list Triangle) : bool :=
  bool_decide
    (Forall (fun e => length (sharing ts e) ≤ 2 /\
                      (expect_closed = true -> length (sharing ts e) = 2))
            (ts ≫= triangle_edges)).

(** Modelled from the spec: [finalize()] closes the accumulation phase; it
    fails (the NonManifoldResult of section 7) when the triangles cannot be
    paired up.  The [next]/[prev]/[twin] links that it derives for the
    destination mesh are not modelled. *)
Definition finalize (expect_closed : bool) (b : SubdivisionTriangleMeshBuilder)
    : option SubdivisionTriangleMeshBuilder :=
  if pairable expect_closed (dst_triangles (mesh b)) then
    Some {| mesh :=
              {| dst_vertices := dst_vertices (mesh b);
                 dst_triangles := dst_triangles (mesh b);
                 finalized := true |};
            from_src := from_src b |}
  else None.

End Builder.

(** ** The driver's effects *)

(** The calls the driver makes on its collaborators that change or inspect
    the destination mesh, in the order they are made. *)
Inductive Call : Type :=
  | CallInsertVertex (pos : glm.vec3) (k : SrcKey)
  | CallInsertTriangle (A B C : ptr)
  | CallFinalize
  | CallCheckMeshInvariants.

Record State : Type := {
  bld : SubdivisionTriangleMeshBuilder;
  calls : list Call
}.

Inductive exn : Type :=
  | out_of_range          (* thrown by [std::vector::at] *)
  | non_manifold_result   (* failure of the builder's [finalize] *)
  | invariant_violation.  (* failure reported by [check_mesh_invariants] *)

(** How a run ends: normally, with an error that reaches the caller, or in
    undefined behaviour (a null or dangling pointer was dereferenced).  Each
    outcome carries the state reached at that point. *)
Inductive outcome (A : Type) : Type :=
  | Ret (a : A) (s : State)
  | Raise (e : exn) (s : State)
  | Undef (s : State).

Arguments Ret {A} a s.
Arguments Raise {A} e s.
Arguments Undef {A} s.

Definition M (A : Type) : Type := State -> outcome A.

Definition ret {A : Type} (a : A) : M A := fun s => Ret a s.

Definition bind {A B : Type} (c : M A) (k : A -> M B) : M B :=
  fun s =>
    match c s with
    | Ret a s' => k a s'
    | Raise e s' => Raise e s'
    | Undef s' => Undef s'
    end.

Notation "'let*' x ':=' c 'in' k" := (bind c (fun x => k))
  (at level 10, x name, c at level 100, k at level 200).
Notation "c ';;' k" := (bind c (fun _ => k))
  (at level 100, k at level 200, right associativity).

(** A value that exists only when every pointer on the way was valid. *)
Definition defined {A : Type} (o : option A) : M A :=
  fun s => match o with Some a => Ret a s | None => Undef s end.

Definition throw {A : Type} (e : exn) : M A := fun s => Raise e s.

Definition final_state {A : Type} (o : outcome A) : State :=
  match o with Ret _ s | Raise _ s | Undef s => s end.

(** [v.at(i)] on a [std::vector]: bounds-checked. *)
Definition at_ {A : Type} (v : list A) (i : nat) : M A :=
  match v !! i with
  | Some a => ret a
  | None => throw out_of_range
  end.

(** A range-based [for] over a container; [acc] is the local variable that
    the body updates. *)
Fixpoint for_each {A B : Type} (l : list A) (body : A -> B -> M B) (acc : B)
    : M B :=
  match l with
  | [] => ret acc
  | a :: l' => let* acc' := body a acc in for_each l' body acc'
  end.

(** The builder's operations as the driver calls them. *)
Definition find_dst_vertex_of (k : SrcKey) : M ptr :=
  fun s => Ret (Builder.find_existing k (bld s)) s.

Definition insert_vertex (pos : glm.vec3) (k : SrcKey) : M ptr :=
  fun s =>
    let '(v, b) := Builder.insert_vertex pos k (bld s) in
    Ret v {| bld := b; calls := calls s ++ [CallInsertVertex pos k] |}.

Definition insert_triangle (A B C : ptr) : M unit :=
  fun s =>
    Ret tt {| bld := Builder.insert_triangle A B C (bld s);
              calls := calls s ++ [CallInsertTriangle A B C] |}.

(** Modelled from the spec: [bld.finalize()], whose failure is "surfaced as
    a finalize-time failure" (section 7): it ends the run, with the
    destination mesh as the accumulation phase left it. *)
Definition finalize (expect_closed : bool) : M unit :=
  fun s =>
    match Builder.finalize expect_closed (bld s) with
    | Some b => Ret tt {| bld := b; calls := calls s ++ [CallFinalize] |}
    | None =>
        Raise non_manifold_result
          {| bld := bld s; calls := calls s ++ [CallFinalize] |}
    end.

(** ** [Application::butterfly_subdivision] *)

Section Driver.

Variable src_mesh : SubdivisionTriangleMesh.
Variable w : ieee754.float.

(** Modelled from the spec: whether the builder expects the destination mesh
    to be closed ("unmatched in a mesh expected to be closed", section 4.2);
    the builder, which would hold this, is not among the sources. *)
Variable expect_closed : bool.

(** Modelled from the spec: the verdict of the external invariant checker
    (section 6) on a destination mesh; the checker is not among the sources,
    and any verdict is allowed for. *)
Variable check_mesh_invariants_ok : DstMesh -> bool.

Local Notation "p ~> f" := (arrow src_mesh p f)
  (at level 40, left associativity).

(** Modelled from the spec: the source key under which the builder files a
    source edge; it reads the two endpoints of [e]. *)
Definition edge_key (e : ptr) : option SrcKey :=
  a ← Some e ~> start; b ← Some e ~> end_; Some (unordered a b).

(** Body of the loop over [face_vertices]. *)
Definition vertex_loop_body (v : ptr) (vertex_rule_vertices : list ptr)
    : M (list ptr) :=
  let* toProcess := find_dst_vertex_of (KVertex v) in
  match toProcess with
  | None =>
      (* vertex has not been computed yet *)
      let* temp_position := defined (vertex_rule src_mesh v) in
      let* toProcess := insert_vertex temp_position (KVertex v) in
      ret (vertex_rule_vertices ++ [toProcess])
  | Some _ =>
      (* vertex has already been computed *)
      ret (vertex_rule_vertices ++ [toProcess])
  end.

(** Body of the loop over [face_edges].  [bld.find_dst_vertex_of(e)] and
    [bld.insert_vertex(position, e)] file [e] under the key of its unordered
    edge, which the builder reads from [e]. *)
Definition edge_loop_body (e : ptr) (edge_rule_vertices : list ptr)
    : M (list ptr) :=
  let* k := defined (edge_key e) in
  let* toProcess := find_dst_vertex_of k in
  match toProcess with
  | None =>
      (* vertex has not been computed yet *)
      let* temp_position := defined (edge_rule src_mesh e w) in
      let* toProcess := insert_vertex temp_position k in
      ret (edge_rule_vertices ++ [toProcess])
  | Some _ =>
      (* vertex has already been computed *)
      ret (edge_rule_vertices ++ [toProcess])
  end.

Definition face_vertices (face : Face) : M (list ptr) :=
  let* v0 := defined (Some (edge face) ~> start) in
  let* v1 := defined (Some (edge face) ~> end_) in
  let* v2 := defined (Some (edge face) ~> next ~> end_) in
  ret [v0; v1; v2].

Definition face_edges (face : Face) : M (list ptr) :=
  let* e1 := defined (Some (edge face) ~> next) in
  let* e2 := defined (Some (edge face) ~> prev) in
  ret [edge face; e1; e2].

(** The two loops of one face: the contents of [vertex_rule_vertices] and
    [edge_rule_vertices] when the triangles are inserted. *)
Definition compute_vertices (face : Face) : M (list ptr * list ptr) :=
  let* fvs := face_vertices face in
  let* vertex_rule_vertices := for_each fvs vertex_loop_body [] in
  let* fes := face_edges face in
  let* edge_rule_vertices := for_each fes edge_loop_body [] in
  ret (vertex_rule_vertices, edge_rule_vertices).

(** The four [insert_triangle] statements. *)
Definition insert_triangles (vertex_rule_vertices edge_rule_vertices : list ptr)
    : M unit :=
  (let* a := at_ vertex_rule_vertices 0 in
   let* b := at_ edge_rule_vertices 0 in
   let* c := at_ edge_rule_vertices 2 in
   insert_triangle a b c);;
  (let* a := at_ edge_rule_vertices 0 in
   let* b := at_ vertex_rule_vertices 1 in
   let* c := at_ edge_rule_vertices 1 in
   insert_triangle a b c);;
  (let* a := at_ edge_rule_vertices 2 in
   let* b := at_ edge_rule_vertices 1 in
   let* c := at_ vertex_rule_vertices 2 in
   insert_triangle a b c);;
  (let* a := at_ edge_rule_vertices 0 in
   let* b := at_ edge_rule_vertices 1 in
   let* c := at_ edge_rule_vertices 2 in
   insert_triangle a b c).

(** Body of the loop over the faces of the source mesh. *)
Definition face_loop_body (face : Face) (_ : unit) : M unit :=
  let* vs := compute_vertices face in
  insert_triangles vs.1 vs.2.

(** Modelled from the spec: [check_mesh_invariants(dst_mesh)], the external
    invariant checker.  The source calls it as its last statement and uses no
    result of it, so a failure reaches the caller only if the checker itself
    ends the call; section 6 ("signals failure") and section 7 ("treated as
    fatal: the refinement is aborted and reported") say that it does, which
    is modelled as raising [invariant_violation]. *)
Definition check_mesh_invariants : M unit :=
  fun s =>
    let s' := {| bld := bld s;
                 calls := calls s ++ [CallCheckMeshInvariants] |} in
    if check_mesh_invariants_ok (mesh (bld s)) then Ret tt s'
    else Raise invariant_violation s'.

Definition butterfly_subdivision (dst_mesh : DstMesh) : outcome unit :=
  (for_each (faces src_mesh) face_loop_body tt;;
   finalize expect_closed;;
   check_mesh_invariants)
    {| bld := Builder.make dst_mesh; calls := [] |}.

End Driver.

(** ** Two concrete source meshes *)

(** A half-edge whose five links are all present. *)
Definition half_edge (s e n p t : nat) : Edge :=
  {| start := Some s; end_ := Some e;
     next := Some n; prev := Some p; twin := Some t |}.

(** The closed tetrahedron over four positions, with the faces
    (0,1,2), (0,3,1), (1,3,2), (0,2,3); half-edge [3f+j] is the [j]-th edge
    of face [f]. *)
Definition tetrahedron (p0 p1 p2 p3 : glm.vec3) : SubdivisionTriangleMesh :=
  {| vertices := [ {| position := p0 |}; {| position := p1 |};
                   {| position := p2 |}; {| position := p3 |} ];
     edges := [ half_edge 0 1 1 2 5;   half_edge 1 2 2 0 8;
                half_edge 2 0 0 1 9;
                half_edge 0 3 4 5 11;  half_edge 3 1 5 3 6;
                half_edge 1 0 3 4 0;
                half_edge 1 3 7 8 4;   half_edge 3 2 8 6 10;
                half_edge 2 1 6 7 1;
                half_edge 0 2 10 11 2; half_edge 2 3 11 9 7;
                half_edge 3 0 9 10 3 ];
     faces := [ {| edge := Some 0 |}; {| edge := Some 3 |};
                {| edge := Some 6 |}; {| edge := Some 9 |} ] |}.

(** A single triangle with an open boundary: no half-edge has a twin. *)
Definition open_triangle (p0 p1 p2 : glm.vec3) : SubdivisionTriangleMesh :=
  {| vertices := [ {| position := p0 |}; {| position := p1 |};
                   {| position := p2 |} ];
     edges := [ {| start := Some 0; end_ := Some 1; next := Some 1;
                   prev := Some 2; twin := nullptr |};
                {| start := Some 1; end_ := Some 2; next := Some 2;
                   prev := Some 0; twin := nullptr |};
                {| start := Some 2; end_ := Some 0; next := Some 0;
                   prev := Some 1; twin := nullptr |} ];
     faces := [ {| edge := Some 0 |} ] |}.

(** ** The stencil as the specification words it *)

(** [e.l1.l2...]: following a chain of links from a half-edge. *)
Fixpoint walk (m : SubdivisionTriangleMesh) (links : list (Edge -> ptr))
    (e : ptr) : option ptr :=
  match links with
  | [] => Some e
  | l :: ls => e' ← l <$> deref (edges m) e; walk m ls e'
  end.

(** [e.l1.l2....v] for a vertex field [v] ([start] or [end]). *)
Definition vertex_at (m : SubdivisionTriangleMesh)
    (path : list (Edge -> ptr) * (Edge -> ptr)) (e : ptr) : option ptr :=
  e' ← walk m path.1 e; path.2 <$> deref (edges m) e'.

(** P0 .. P7 of section 4.1. *)
Definition stencil_paths : list (list (Edge -> ptr) * (Edge -> ptr)) :=
  [ ([], start);
    ([], end_);
    ([next], end_);
    ([twin; next], end_);
    ([next; twin; prev], start);
    ([prev; twin; prev], start);
    ([twin; prev; twin; prev], start);
    ([twin; next; twin; prev], start) ].

(** The positions of the eight stencil vertices, when the neighbourhood of
    [e] is fully resolvable. *)
Definition stencil_points (m : SubdivisionTriangleMesh) (e : ptr)
    : option (list glm.vec3) :=
  mapM (fun path => v ← vertex_at m path e; position_of m v) stencil_paths.

(** The weights 1/2, 1/2, 2w, 2w, -w, -w, -w, -w. *)
Definition weights (w : Q) : list Q :=
  [ 0.5; 0.5; 2 * w; 2 * w; - w; - w; - w; - w ]%Q.

Definition Qsum (l : list Q) : Q := foldr Qplus 0%Q l.

(** Σ weight_i · x_i on one coordinate axis, in exact arithmetic. *)
Definition weighted_sum (ws xs : list Q) : Q :=
  Qsum (zip_with Qmult ws xs).

(** A property of each of the three coordinate axes. *)
Definition on_axes (P : (glm.vec3 -> ieee754.float) -> Prop) : Prop :=
  P glm.x /\ P glm.y /\ P glm.z.

(** [(float)(a * 0.5 + b * 0.5)]: the sum of the two halves, formed in
    [double] and rounded to [float]. *)
Definition float_midpoint (a b : ieee754.float) : ieee754.float :=
  ieee754.float_of_double
    (ieee754.double_add
       (ieee754.double_mul (ieee754.double_of_float a) ieee754.double_half)
       (ieee754.double_mul (ieee754.double_of_float b) ieee754.double_half)).

Definition midpoint (a b : glm.vec3) : glm.vec3 :=
  glm.Vec3 (float_midpoint (glm.x a) (glm.x b))
           (float_midpoint (glm.y a) (glm.y b))
           (float_midpoint (glm.z a) (glm.z b)).

(** The coordinate stays finite when it is doubled in [float]. *)
Definition doubles (a : ieee754.float) : Prop :=
  ieee754.finite (ieee754.float_mul a (ieee754.float_of_int 2)) = true.

(** On the axis [c], the terms of the apexes [p2], [p3] and of the second
    ring [p4] .. [p7] are finite before they are multiplied by the weight:
    no apex coordinate overflows when doubled, and no second-ring coordinate
    is an infinity or NaN. *)
Definition no_overflow (c : glm.vec3 -> ieee754.float)
    (p2 p3 p4 p5 p6 p7 : glm.vec3) : Prop :=
  doubles (c p2) /\ doubles (c p3) /\
  ieee754.finite (c p4) = true /\ ieee754.finite (c p5) = true /\
  ieee754.finite (c p6) = true /\ ieee754.finite (c p7) = true.

(** ** Notions used to state the properties of the driver *)

(** The run did not end in undefined behaviour. *)
Definition is_defined {A : Type} (o : outcome A) : Prop :=
  match o with Undef _ => False | _ => True end.

(** The six source keys of a face: its corners V0, V1, V2 in face order, and
    its edges E0 = [f.edge], E1 = [f.edge.next], E2 = [f.edge.prev]. *)
Definition face_keys (m : SubdivisionTriangleMesh) (f : Face)
    : option (list SrcKey) :=
  V0 ← vertex_at m ([], start) (edge f);
  V1 ← vertex_at m ([], end_) (edge f);
  V2 ← vertex_at m ([next], end_) (edge f);
  E1 ← walk m [next] (edge f);
  E2 ← walk m [prev] (edge f);
  k0 ← edge_key m (edge f);
  k1 ← edge_key m E1;
  k2 ← edge_key m E2;
  Some [KVertex V0; KVertex V1; KVertex V2; k0; k1; k2].

(** The destination counterpart of a source key in a builder state. *)
Definition counterpart (s : State) (k : SrcKey) : ptr :=
  Builder.find_existing k (bld s).

(** The four child triangles of section 4.3, over the counterparts
    v0, v1, v2 of the corners and m0, m1, m2 of the edges. *)
Definition children (m : SubdivisionTriangleMesh) (s : State) (f : Face)
    : list Triangle :=
  match face_keys m f with
  | Some [V0; V1; V2; E0; E1; E2] =>
      let v0 := counterpart s V0 in
      let v1 := counterpart s V1 in
      let v2 := counterpart s V2 in
      let m0 := counterpart s E0 in
      let m1 := counterpart s E1 in
      let m2 := counterpart s E2 in
      [ (v0, m0, m2); (m0, v1, m1); (m2, m1, v2); (m0, m1, m2) ]
  | _ => []
  end.

(** Every key of the face has a destination counterpart. *)
Definition covered (m : SubdivisionTriangleMesh) (s : State) (f : Face)
    : Prop :=
  exists ks, face_keys m f = Some ks /\
             Forall (fun k => is_Some (counterpart s k)) ks.

Definition non_null (t : Triangle) : Prop :=
  is_Some t.1.1 /\ is_Some t.1.2 /\ is_Some t.2.

(** The destination vertices made for a given source key. *)
Definition made_for (k : SrcKey) (s : State) : list DstVertex :=
  filter (fun d => source d = k) (dst_vertices (mesh (bld s))).

Definition is_insert (c : Call) : Prop :=
  match c with
  | CallInsertVertex _ _ | CallInsertTriangle _ _ _ => True
  | CallFinalize | CallCheckMeshInvariants => False
  end.

(** The triangles passed to [insert_triangle] along a sequence of calls. *)
Fixpoint triangles_of_calls (l : list Call) : list Triangle :=
  match l with
  | [] => []
  | CallInsertTriangle A B C :: l' => (A, B, C) :: triangles_of_calls l'
  | _ :: l' => triangles_of_calls l'
  end.

(** The scratch mapping and the destination vertices agree: key [k] is mapped
    to [i] exactly when vertex [i] carries the back-reference [k]. *)
Definition consistent (s : State) : Prop :=
  forall k i,
    from_src (bld s) !! k = Some i <->
    source <$> dst_vertices (mesh (bld s)) !! i = Some k.

(** One insertion of a vertex as the driver performs it: under a key that has
    no counterpart yet and, for a source vertex, at that vertex's position. *)
Inductive vstep (m : SubdivisionTriangleMesh) : State -> State -> Prop :=
  | vstep_insert s pos k :
      counterpart s k = None ->
      (forall v, k = KVertex v -> position_of m v = Some pos) ->
      vstep m s (final_state (insert_vertex pos k s)).

(** One insertion of a triangle. *)
Inductive tstep : State -> State -> Prop :=
  | tstep_insert s A B C : tstep s (final_state (insert_triangle A B C s)).

Definition step (m : SubdivisionTriangleMesh) (s s' : State) : Prop :=
  vstep m s s' \/ tstep s s'.

(** ** Notions used in the proofs about the driver *)

(** A run from [s] that does not raise: it ends normally in a state related
    to [s] by [R] and satisfying [Q], or in undefined behaviour in a state
    related to [s] by [R]. *)
Definition spec {A : Type} (R : relation State) (s : State) (o : outcome A)
    (Q : A -> State -> Prop) : Prop :=
  match o with
  | Ret a s' => R s s' /\ Q a s'
  | Raise _ _ => False
  | Undef s' => R s s'
  end.

(** Destination vertices made for a source vertex sit at its position. *)
Definition faithful (m : SubdivisionTriangleMesh) (s : State) : Prop :=
  forall d v,
    d ∈ dst_vertices (mesh (bld s)) -> source d = KVertex v ->
    position_of m v = Some (dst_position d).

(** The invariant of the accumulation phase. *)
Record accumulating (m : SubdivisionTriangleMesh) (s : State) : Prop := {
  acc_consistent : consistent s;
  acc_faithful : faithful m s;
  acc_logged : triangles_of_calls (calls s) = dst_triangles (mesh (bld s));
  acc_calls : Forall is_insert (calls s);
  acc_open : finalized (mesh (bld s)) = false
}.

Definition init : State := {| bld := Builder.make empty_mesh; calls := [] |}.

(** What a loop leaves in its vector: one non-null destination vertex per
    element, the counterpart of that element's key. *)
Definition pushed (key : ptr -> option SrcKey) (s : State)
    (l : list ptr) (acc : list ptr) : Prop :=
  Forall2 (fun a p => exists k i, key a = Some k /\ p = Some i /\
                                  counterpart s k = Some i) l acc.

(** The state of the two vectors when the triangles are inserted. *)
Definition computed (m : SubdivisionTriangleMesh) (face : Face)
    (vs es : list ptr) (s : State) : Prop :=
  exists V0 V1 V2 E0 E1 E2 v0 v1 v2 m0 m1 m2,
    face_keys m face = Some [V0; V1; V2; E0; E1; E2] /\
    vs = [Some v0; Some v1; Some v2] /\
    es = [Some m0; Some m1; Some m2] /\
    counterpart s V0 = Some v0 /\ counterpart s V1 = Some v1 /\
    counterpart s V2 = Some v2 /\ counterpart s E0 = Some m0 /\
    counterpart s E1 = Some m1 /\ counterpart s E2 = Some m2.

(** The state after the four [insert_triangle] statements. *)
Definition with_triangles (ts : list Triangle) (s : State) : State :=
  {| bld := {| mesh := {| dst_vertices := dst_vertices (mesh (bld s));
                          dst_triangles := dst_triangles (mesh (bld s)) ++ ts;
                          finalized := finalized (mesh (bld s)) |};
               from_src := from_src (bld s) |};
     calls := calls s ++
                map (fun t : Triangle => CallInsertTriangle t.1.1 t.1.2 t.2) ts |}.

(** The state after the faces [seen] have been processed from [s0]. *)
Definition subdivided (m : SubdivisionTriangleMesh) (s0 : State)
    (seen : list Face) (s : State) : Prop :=
  Forall (covered m s) seen /\
  dst_triangles (mesh (bld s)) =
    dst_triangles (mesh (bld s0)) ++ flat_map (children m s) seen.

(** The state [s] of the end of the loop over the faces, after the calls
    [cs] that follow the loop have left the flag [fin] in the destination
    mesh. *)
Definition ended (fin : bool) (cs : list Call) (s : State) : State :=
  {| bld := {| mesh := {| dst_vertices := dst_vertices (mesh (bld s));
                          dst_triangles := dst_triangles (mesh (bld s));
                          finalized := fin |};
               from_src := from_src (bld s) |};
     calls := calls s ++ cs |}.

(** The state after [finalize()] and [check_mesh_invariants]. *)
Definition finished (s : State) : State :=
  ended true [CallFinalize; CallCheckMeshInvariants] s.

(** The state in which [finalize()] has failed. *)
Definition unpaired (s : State) : State :=
  ended (finalized (mesh (bld s))) [CallFinalize] s.

(** Every run is of one of four kinds: it stops in undefined behaviour
    while it accumulates; or it runs through all faces and [finalize]
    fails; or it finalizes and checks, and then returns or raises as the
    checker decides. *)
Inductive run_kind (m : SubdivisionTriangleMesh) (closed : bool)
    (ok : DstMesh -> bool) : outcome unit -> Prop :=
  | run_undef s :
      rtc (step m) init s ->
      run_kind m closed ok (Undef s)
  | run_unpaired s :
      rtc (step m) init s -> subdivided m init (faces m) s ->
      Builder.pairable closed (dst_triangles (mesh (bld s))) = false ->
      run_kind m closed ok (Raise non_manifold_result (unpaired s))
  | run_ret s :
      rtc (step m) init s -> subdivided m init (faces m) s ->
      Builder.pairable closed (dst_triangles (mesh (bld s))) = true ->
      ok (mesh (bld (finished s))) = true ->
      run_kind m closed ok (Ret tt (finished s))
  | run_raise s :
      rtc (step m) init s -> subdivided m init (faces m) s ->
      Builder.pairable closed (dst_triangles (mesh (bld s))) = true ->
      ok (mesh (bld (finished s))) = false ->
      run_kind m closed ok (Raise invariant_violation (finished s)).

(** ** The fail-fast policy of section 7, as the specification words it *)

(** The driver evaluates the edge rule on the three edges of every face. *)
Definition needs_edge_rule (m : SubdivisionTriangleMesh) (e : ptr) : Prop :=
  exists f, f ∈ faces m /\
            (e = edge f \/ walk m [next] (edge f) = Some e \/
             walk m [prev] (edge f) = Some e).

Definition fails_fast (m : SubdivisionTriangleMesh) (w : ieee754.float)
    (closed : bool) (ok : DstMesh -> bool) : Prop :=
  forall e,
    needs_edge_rule m e -> stencil_points m e = None ->
    exists x s, butterfly_subdivision m w closed ok empty_mesh = Raise x s /\
                mesh (bld s) = empty_mesh.

(** ** Fixtures *)

Definition returns {A : Type} (o : outcome A) : bool :=
  match o with Ret _ _ => true | _ => false end.

Definition edge_vertex (p : glm.vec3) (a b : nat) : DstVertex :=
  {| dst_position := p; source := KEdge (Some a) (Some b) |}.

Definition corner_vertex (p : glm.vec3) (a : nat) : DstVertex :=
  {| dst_position := p; source := KVertex (Some a) |}.

(** The position with the integer coordinates [a], [b], [c]. *)
Definition at_integers (a b c : Z) : glm.vec3 :=
  glm.Vec3 (ieee754.float_of_int a) (ieee754.float_of_int b)
           (ieee754.float_of_int c).

Definition unit_tetrahedron : SubdivisionTriangleMesh :=
  tetrahedron (at_integers 1 1 1) (at_integers 1 (-1) (-1))
              (at_integers (-1) 1 (-1)) (at_integers (-1) (-1) 1).

Definition flat_triangle : SubdivisionTriangleMesh :=
  open_triangle (at_integers 0 0 0) (at_integers 1 0 0) (at_integers 0 1 0).

(** The weight 1/16 of the classical scheme. *)
Definition sixteenth : ieee754.float := ieee754.pow2 (-4).

(** A checker that accepts every mesh. *)
Definition accept (dst_mesh : DstMesh) : bool := true.

(** The position on the first axis at the coordinate [a]. *)
Definition on_x (a : ieee754.float) : glm.vec3 :=
  glm.Vec3 a ieee754.zero ieee754.zero.

(** A tetrahedron with an edge from 1 to 2^-24: its midpoint, 1/2 + 2^-25,
    is not a [float]. *)
Definition thin_tetrahedron : SubdivisionTriangleMesh :=
  tetrahedron (on_x (ieee754.float_of_int 1)) (on_x (ieee754.pow2 (-24)))
              (on_x ieee754.zero) (on_x ieee754.zero).

(** A tetrahedron with one vertex far away, at 2^52. *)
Definition far_tetrahedron : SubdivisionTriangleMesh :=
  tetrahedron (on_x (ieee754.float_of_int 1)) (on_x (ieee754.float_of_int 1))
              (on_x (ieee754.pow2 52)) (on_x (ieee754.float_of_int 1)).

(** Two tetrahedra that differ in the apex [p2] only; the second has it at
    3 * 2^126, which overflows when doubled. *)
Definition near_apex : SubdivisionTriangleMesh :=
  tetrahedron (on_x (ieee754.float_of_int 1)) (on_x (ieee754.float_of_int 3))
              (on_x (ieee754.float_of_int 5)) (on_x ieee754.zero).

Definition huge_apex : SubdivisionTriangleMesh :=
  tetrahedron (on_x (ieee754.float_of_int 1)) (on_x (ieee754.float_of_int 3))
              (on_x (ieee754.float_mul (ieee754.float_of_int 3)
                                       (ieee754.pow2 126)))
              (on_x ieee754.zero).

(** The unit tetrahedron with every face listed twice. *)
Definition doubled_tetrahedron : SubdivisionTriangleMesh :=
  {| vertices := vertices unit_tetrahedron;
     edges := edges unit_tetrahedron;
     faces := faces unit_tetrahedron ++ faces unit_tetrahedron |}.

(** ** Where a destination vertex comes from *)

(** [v] is one of the three corners that the driver reads from face [f]. *)
Definition corner_of (m : SubdivisionTriangleMesh) (f : Face) (v : ptr)
    : Prop :=
  vertex_at m ([], start) (edge f) = Some v \/
  vertex_at m ([], end_) (edge f) = Some v \/
  vertex_at m ([next], end_) (edge f) = Some v.

(** [e] is one of the three half-edges that the driver reads from face [f]. *)
Definition edge_of (m : SubdivisionTriangleMesh) (f : Face) (e : ptr)
    : Prop :=
  e = edge f \/ walk m [next] (edge f) = Some e \/
  walk m [prev] (edge f) = Some e.

(** The destination vertex [d] is what one of the two rules gives for a
    corner or a half-edge of one of the faces [fs]. *)
Definition placed_by_rules (m : SubdivisionTriangleMesh) (w : ieee754.float)
    (fs : list Face) (d : DstVertex) : Prop :=
  (exists f v, f ∈ fs /\ corner_of m f v /\ source d = KVertex v /\
               vertex_rule m v = Some (dst_position d)) \/
  (exists f e, f ∈ fs /\ edge_of m f e /\ edge_key m e = Some (source d) /\
               edge_rule m e w = Some (dst_position d)).

(** One insertion, of a vertex placed by the rules or of a triangle. *)
Inductive rstep (m : SubdivisionTriangleMesh) (w : ieee754.float)
    (fs : list Face) : State -> State -> Prop :=
  | rstep_vertex s d :
      placed_by_rules m w fs d ->
      rstep m w fs s
        (final_state (insert_vertex (dst_position d) (source d) s))
  | rstep_triangle s A B C :
      rstep m w fs s (final_state (insert_triangle A B C s)).

(** All keys of all faces, each once. *)
Definition mesh_keys (m : SubdivisionTriangleMesh) : list SrcKey :=
  remove_dups (f ← faces m; default [] (face_keys m f)).

(** A triangle whose three corners are vertices of the destination mesh. *)
Definition in_range (n : nat) (t : Triangle) : Prop :=
  exists a b c, t = (Some a, Some b, Some c) /\ a < n /\ b < n /\ c < n.

Definition distinct_corners (t : Triangle) : Prop :=
  t.1.1 <> t.1.2 /\ t.1.2 <> t.2 /\ t.1.1 <> t.2.

(** ** Two runs side by side *)

(** Two destination vertices with the same back-reference and related
    positions. *)
Definition rel_vertex (V : glm.vec3 -> glm.vec3 -> Prop) (d d' : DstVertex)
    : Prop :=
  source d = source d' /\ V (dst_position d) (dst_position d').

(** Two states with the same mapping, the same triangles, and vertices that
    agree up to [V] on their positions. *)
Definition rel_state (V : glm.vec3 -> glm.vec3 -> Prop) (s s' : State)
    : Prop :=
  from_src (bld s) = from_src (bld s') /\
  Forall2 (rel_vertex V)
    (dst_vertices (mesh (bld s))) (dst_vertices (mesh (bld s'))) /\
  dst_triangles (mesh (bld s)) = dst_triangles (mesh (bld s')) /\
  finalized (mesh (bld s)) = finalized (mesh (bld s')).

(** Two outcomes of the same kind, with related values and states. *)
Definition sim {A : Type} (V : glm.vec3 -> glm.vec3 -> Prop)
    (VA : A -> A -> Prop) (o o' : outcome A) : Prop :=
  match o, o' with
  | Ret a s, Ret a' s' => VA a a' /\ rel_state V s s'
  | Raise x s, Raise x' s' => x = x' /\ rel_state V s s'
  | Undef s, Undef s' => rel_state V s s'
  | _, _ => False
  end.

(** * Properties of the arithmetic *)

Section FloatFacts.

Import ieee754.

Lemma same_number_refl a : same_number a a.
Proof. by left. Qed.

Lemma same_number_sym a b : same_number a b -> same_number b a.
Proof. intros [->|[? ?]]; [by left|by right]. Qed.

Lemma same_number_trans a b c :
  same_number a b -> same_number b c -> same_number a c.
Proof.
  intros [->|[Ha Hb]] [->|[Hb' Hc]]; try (by left); try (by right).
Qed.

Lemma float_mul_zero a z :
  finite a = true -> is_zero z = true -> is_zero (float_mul a z) = true.
Proof. by destruct a, z. Qed.

Lemma doubles_finite a : doubles a -> finite a = true.
Proof. by destruct a. Qed.

Lemma double_of_float_zero z :
  is_zero z = true -> is_zero (double_of_float z) = true.
Proof. by destruct z. Qed.

Lemma float_of_double_same a b :
  same_number a b -> same_number (float_of_double a) (float_of_double b).
Proof.
  intros [->|[Ha Hb]]; [by left|].
  right. by destruct a, b.
Qed.

(** Adding a zero changes at most the sign of a zero. *)
Lemma double_add_zero a b z :
  same_number a b -> is_zero z = true -> same_number (double_add a z) b.
Proof.
  intros [->|[Ha Hb]] Hz.
  - destruct b as [[]|[]| |], z as [[]| | |]; try done;
      try (by left); by right.
  - right. split; [|done]. by destruct a as [[]| | |], z as [[]| | |].
Qed.

Lemma double_add_comm a b : double_add a b = double_add b a.
Proof.
  destruct a as [[]|[]| |sa ma ea], b as [[]|[]| |sb mb eb]; try reflexivity.
  unfold double_add, SFadd. rewrite (Z.min_comm eb ea). f_equal.
  apply Z.add_comm.
Qed.

Lemma float_midpoint_comm a b : float_midpoint a b = float_midpoint b a.
Proof. unfold float_midpoint. by rewrite double_add_comm. Qed.

(** With a zero weight the six terms of the apexes and of the second ring
    are zeros, provided none of them is an infinity or NaN before it is
    multiplied by the weight; what remains is the sum of the two halves. *)
Lemma stencil_zero_weight (w x0 x1 x2 x3 x4 x5 x6 x7 : float) :
  is_zero w = true ->
  doubles x2 -> doubles x3 ->
  finite x4 = true -> finite x5 = true ->
  finite x6 = true -> finite x7 = true ->
  same_number (stencil_expression ieee w x0 x1 x2 x3 x4 x5 x6 x7)
              (float_midpoint x0 x1).
Proof.
  intros Hw H2 H3 H4 H5 H6 H7.
  assert (is_zero (float_neg w) = true) as Hn by (by destruct w).
  unfold stencil_expression, float_midpoint.
  cbn [ieee narrow wide_add wide_mul widen mul opp half two].
  apply float_of_double_same.
  repeat (apply double_add_zero;
          [|apply double_of_float_zero, float_mul_zero; done]).
  apply same_number_refl.
Qed.

End FloatFacts.

Section ExactFacts.

Local Open Scope Q_scope.

Lemma weights_sum (w : Q) : Qsum (weights w) == 1.
Proof. unfold Qsum, weights. simpl. ring. Qed.

(** Without rounding, the source's expression is the weighted sum. *)
Lemma stencil_exact (w x0 x1 x2 x3 x4 x5 x6 x7 : Q) :
  stencil_expression exact w x0 x1 x2 x3 x4 x5 x6 x7 ==
  weighted_sum (weights w) [x0; x1; x2; x3; x4; x5; x6; x7].
Proof.
  unfold stencil_expression, weighted_sum, Qsum, weights. simpl. ring.
Qed.

(** Without rounding, the expression is invariant under the exchange of the
    roles of the stencil that turns a half-edge into its twin. *)
Lemma stencil_exact_twin (w x0 x1 x2 x3 x4 x5 x6 x7 : Q) :
  stencil_expression exact w x1 x0 x3 x2 x7 x6 x5 x4 ==
  stencil_expression exact w x0 x1 x2 x3 x4 x5 x6 x7.
Proof. unfold stencil_expression. simpl. ring. Qed.

End ExactFacts.

(** * Properties of the two rules *)

Section RuleFacts.

Variable m : SubdivisionTriangleMesh.

(** Case analysis on every pointer read in the goal. *)
Ltac deref_cases :=
  repeat (simpl; try done;
          match goal with
          | H : deref ?a ?p = _ |- context [deref ?a ?p] => rewrite H
          | |- context [deref ?a ?p] => destruct (deref a p) eqn:?
          end).

Lemma arrow_field (e : ptr) (f : Edge -> ptr) :
  arrow m (Some e) f = f <$> deref (edges m) e.
Proof. unfold arrow. simpl. by destruct (deref (edges m) e). Qed.

(** [edge_rule] reads exactly the eight positions of the stencil, and
    combines them as the source's three assignments do. *)
Lemma edge_rule_stencil (e : ptr) (w : ieee754.float) :
  edge_rule m e w =
  ps ← stencil_points m e;
  match ps with
  | [p0; p1; p2; p3; p4; p5; p6; p7] =>
      Some (glm.Vec3 (axis glm.x w p0 p1 p2 p3 p4 p5 p6 p7)
                     (axis glm.y w p0 p1 p2 p3 p4 p5 p6 p7)
                     (axis glm.z w p0 p1 p2 p3 p4 p5 p6 p7))
  | _ => None
  end.
Proof.
  unfold edge_rule, stencil_points, collect, stencil_paths, vertex_at,
    arrow, position_of.
  cbn [mapM walk fst snd].
  deref_cases.
Qed.

Lemma stencil_points_length (e : ptr) (ps : list glm.vec3) :
  stencil_points m e = Some ps -> length ps = 8%nat.
Proof. intros H. by apply length_mapM in H. Qed.

Lemma stencil_points_eight (e : ptr) (ps : list glm.vec3) :
  stencil_points m e = Some ps ->
  exists p0 p1 p2 p3 p4 p5 p6 p7, ps = [p0; p1; p2; p3; p4; p5; p6; p7].
Proof.
  intros H%stencil_points_length.
  do 8 (destruct ps as [|? ps]; [done|]).
  destruct ps; [|done]. by do 8 eexists.
Qed.

Lemma vertex_rule_position (v : ptr) : vertex_rule m v = position_of m v.
Proof. unfold vertex_rule. by destruct (position_of m v). Qed.

(** A path that starts with [twin] continues from the twin. *)
Lemma vertex_at_twin (e t : ptr) (links : list (Edge -> ptr))
    (f : Edge -> ptr) :
  twin <$> deref (edges m) e = Some t ->
  vertex_at m (twin :: links, f) e = vertex_at m (links, f) t.
Proof.
  intros H. unfold vertex_at. simpl.
  destruct (deref (edges m) e) as [E|]; [|done].
  simpl in *. by injection H as ->.
Qed.

(** The stencil of the twin: the stencil of the half-edge with the roles
    exchanged, P0 with P1, P2 with P3, P4 with P7 and P5 with P6. *)
Lemma stencil_points_twin (e t : ptr) (p0 p1 p2 p3 p4 p5 p6 p7 : glm.vec3) :
  twin <$> deref (edges m) e = Some t ->
  twin <$> deref (edges m) t = Some e ->
  start <$> deref (edges m) t = end_ <$> deref (edges m) e ->
  end_ <$> deref (edges m) t = start <$> deref (edges m) e ->
  stencil_points m e = Some [p0; p1; p2; p3; p4; p5; p6; p7] ->
  stencil_points m t = Some [p1; p0; p3; p2; p7; p6; p5; p4].
Proof.
  intros Ht Ht' Hs He H%mapM_Some. apply mapM_Some.
  unfold stencil_paths in *.
  repeat match goal with
         | H : Forall2 _ (_ :: _) (_ :: _) |- _ =>
             apply Forall2_cons in H as [? H]
         end.
  rewrite !(vertex_at_twin e t) in * by done.
  repeat apply Forall2_cons_2; [..|constructor];
    rewrite ?(vertex_at_twin t e) by done; try done.
  - unfold vertex_at in *. simpl in *. by rewrite Hs.
  - unfold vertex_at in *. simpl in *. by rewrite He.
Qed.

(** With a zero weight, on an axis without overflow, the result is the
    rounded sum of the halves of the two endpoints. *)
Lemma zero_weight_midpoint (e : ptr) (w : ieee754.float) (r : glm.vec3)
    (p0 p1 p2 p3 p4 p5 p6 p7 : glm.vec3) :
  ieee754.is_zero w = true ->
  stencil_points m e = Some [p0; p1; p2; p3; p4; p5; p6; p7] ->
  edge_rule m e w = Some r ->
  on_axes (fun c =>
    no_overflow c p2 p3 p4 p5 p6 p7 ->
    ieee754.same_number (c r) (float_midpoint (c p0) (c p1))).
Proof.
  intros Hw H Hr. rewrite edge_rule_stencil, H in Hr.
  simpl in Hr. injection Hr as <-.
  repeat split; intros (H2 & H3 & H4 & H5 & H6 & H7);
    by apply stencil_zero_weight.
Qed.

(** C1, as amended.  For a half-edge [e] whose eight stencil vertices
    P0..P7 resolve (along the paths [e.start], [e.end], [e.next.end],
    [e.twin.next.end], [e.next.twin.prev.start], [e.prev.twin.prev.start],
    [e.twin.prev.twin.prev.start], [e.twin.next.twin.prev.start]) and for
    every weight [w], [edge_rule e w] returns, on each coordinate axis, the
    value of the expression
    [x0 * 0.5 + x1 * 0.5 + x2 * 2 * w + x3 * 2 * w
     + x4 * -w + x5 * -w + x6 * -w + x7 * -w]
    over the coordinates of these positions, with the products by [2], [w]
    and [-w] rounded to [float], the sum formed from left to right in
    [double], and the result rounded to [float].  Evaluated without rounding
    the expression is the weighted sum with the weights
    1/2, 1/2, 2w, 2w, -w, -w, -w, -w, which sum to 1. *)
Theorem edge_rule_rounded_weighted_sum (e : ptr) (w : ieee754.float)
    (ps : list glm.vec3) :
  stencil_points m e = Some ps ->
  (exists p0 p1 p2 p3 p4 p5 p6 p7,
      ps = [p0; p1; p2; p3; p4; p5; p6; p7] /\
      edge_rule m e w =
        Some (glm.Vec3
                (stencil_expression ieee w
                   (glm.x p0) (glm.x p1) (glm.x p2) (glm.x p3)
                   (glm.x p4) (glm.x p5) (glm.x p6) (glm.x p7))
                (stencil_expression ieee w
                   (glm.y p0) (glm.y p1) (glm.y p2) (glm.y p3)
                   (glm.y p4) (glm.y p5) (glm.y p6) (glm.y p7))
                (stencil_expression ieee w
                   (glm.z p0) (glm.z p1) (glm.z p2) (glm.z p3)
                   (glm.z p4) (glm.z p5) (glm.z p6) (glm.z p7)))) /\
  (forall q x0 x1 x2 x3 x4 x5 x6 x7 : Q,
      stencil_expression exact q x0 x1 x2 x3 x4 x5 x6 x7 ==
      weighted_sum (weights q) [x0; x1; x2; x3; x4; x5; x6; x7])%Q /\
  (forall q : Q, Qsum (weights q) == 1)%Q.
Proof.
  intros H. split; [|split; [apply stencil_exact|apply weights_sum]].
  destruct (stencil_points_eight _ _ H)
    as (p0 & p1 & p2 & p3 & p4 & p5 & p6 & p7 & ->).
  exists p0, p1, p2, p3, p4, p5, p6, p7. split; [done|].
  by rewrite edge_rule_stencil, H.
Qed.

(** C6, as amended.  When [e] and [t] are twins of each other with swapped
    endpoints (the same geometric edge), the stencil of [t] is the stencil of
    [e] with the roles exchanged (P0 with P1, P2 with P3, P4 with P7, P5 with
    P6), so [edge_rule t w] evaluates the same expression on the exchanged
    positions: the same eight terms, summed in another order.  Without
    rounding the two results are equal; with a zero weight and no overflow
    they are the same number. *)
Theorem edge_rule_twin (e t : ptr) (w : ieee754.float)
    (p0 p1 p2 p3 p4 p5 p6 p7 : glm.vec3) :
  twin <$> deref (edges m) e = Some t ->
  twin <$> deref (edges m) t = Some e ->
  start <$> deref (edges m) t = end_ <$> deref (edges m) e ->
  end_ <$> deref (edges m) t = start <$> deref (edges m) e ->
  stencil_points m e = Some [p0; p1; p2; p3; p4; p5; p6; p7] ->
  stencil_points m t = Some [p1; p0; p3; p2; p7; p6; p5; p4] /\
  (exists r r',
      edge_rule m e w = Some r /\ edge_rule m t w = Some r' /\
      on_axes (fun c =>
        c r = stencil_expression ieee w
                (c p0) (c p1) (c p2) (c p3) (c p4) (c p5) (c p6) (c p7) /\
        c r' = stencil_expression ieee w
                 (c p1) (c p0) (c p3) (c p2) (c p7) (c p6) (c p5) (c p4) /\
        (ieee754.is_zero w = true -> no_overflow c p2 p3 p4 p5 p6 p7 ->
         ieee754.same_number (c r) (c r')))) /\
  (forall q x0 x1 x2 x3 x4 x5 x6 x7 : Q,
      stencil_expression exact q x1 x0 x3 x2 x7 x6 x5 x4 ==
      stencil_expression exact q x0 x1 x2 x3 x4 x5 x6 x7)%Q.
Proof.
  intros Ht Ht' Hs He H.
  pose proof (stencil_points_twin _ _ _ _ _ _ _ _ _ _ Ht Ht' Hs He H) as H'.
  split; [exact H'|]. split; [|apply stencil_exact_twin].
  do 2 eexists. rewrite !edge_rule_stencil, H, H'.
  split; [reflexivity|]. split; [reflexivity|].
  repeat split; intros Hw (H2 & H3 & H4 & H5 & H6 & H7);
    (eapply same_number_trans;
     [apply stencil_zero_weight; done
     |rewrite float_midpoint_comm; apply same_number_sym;
      apply stencil_zero_weight; done]).
Qed.

(** C10, as amended.  For every weight, zero included, the edge rule is
    defined exactly when all eight stencil positions resolve.  With a zero
    weight its result is, on each axis, the number
    [(float)(x0 * 0.5 + x1 * 0.5)] of the two endpoints alone, provided that
    on this axis no apex coordinate overflows when doubled and no second-ring
    coordinate is an infinity or NaN. *)
Theorem edge_rule_zero_weight (e : ptr) :
  (forall w, is_Some (edge_rule m e w) <-> is_Some (stencil_points m e)) /\
  (forall w r ps,
      ieee754.is_zero w = true ->
      edge_rule m e w = Some r -> stencil_points m e = Some ps ->
      exists p0 p1 p2 p3 p4 p5 p6 p7,
        ps = [p0; p1; p2; p3; p4; p5; p6; p7] /\
        on_axes (fun c =>
          no_overflow c p2 p3 p4 p5 p6 p7 ->
          ieee754.same_number (c r) (float_midpoint (c p0) (c p1)))).
Proof.
  split.
  - intros w. rewrite edge_rule_stencil.
    destruct (stencil_points m e) as [ps|] eqn:H; simpl.
    + destruct (stencil_points_eight _ _ H)
        as (p0 & p1 & p2 & p3 & p4 & p5 & p6 & p7 & ->).
      split; eauto.
    + split; intros []; done.
  - intros w r ps Hw Hr H.
    destruct (stencil_points_eight _ _ H)
      as (p0 & p1 & p2 & p3 & p4 & p5 & p6 & p7 & ->).
    exists p0, p1, p2, p3, p4, p5, p6, p7. split; [done|].
    by eapply zero_weight_midpoint.
Qed.

End RuleFacts.

(** * Properties of the driver *)

(** ** Reasoning about runs *)

Section Spec.

Context {R : relation State} `{!PreOrder R}.

Lemma spec_ret {A} (a : A) s (Q : A -> State -> Prop) :
  Q a s -> spec R s (ret a s) Q.
Proof. by split. Qed.

Lemma spec_defined {A} (o : option A) s :
  spec R s (defined o s) (fun a s' => o = Some a /\ s' = s).
Proof. destruct o; simpl; done. Qed.

Lemma spec_bind {A B} (c : M A) (k : A -> M B) s Q1 Q2 :
  spec R s (c s) Q1 ->
  (forall a s', R s s' -> Q1 a s' -> spec R s' (k a s') Q2) ->
  spec R s (bind c k s) Q2.
Proof.
  unfold bind. destruct (c s) as [a s'| |]; simpl; [|done..].
  intros [Hs HQ] Hk. specialize (Hk a s' Hs HQ).
  destruct (k a s'); simpl in *; [|done|].
  - destruct Hk. split; [eapply transitivity; eassumption|done].
  - eapply transitivity; eassumption.
Qed.

Lemma spec_post {A} s (o : outcome A) (Q Q' : A -> State -> Prop) :
  spec R s o Q ->
  (forall a s', R s s' -> Q a s' -> Q' a s') ->
  spec R s o Q'.
Proof.
  destruct o as [a s'| |]; simpl; [|done..].
  intros [HR HQ] H. split; [done|by apply H].
Qed.

Lemma spec_for_each {A B} (body : A -> B -> M B)
    (I : list A -> B -> State -> Prop) (l : list A) :
  (forall seen a acc s,
      I seen acc s ->
      spec R s (body a acc s) (fun acc' s' => I (seen ++ [a]) acc' s')) ->
  forall seen acc s,
    I seen acc s ->
    spec R s (for_each l body acc s) (fun acc' s' => I (seen ++ l) acc' s').
Proof.
  intros Hbody. induction l as [|a l IH]; intros seen acc s HI; simpl.
  - apply spec_ret. by rewrite app_nil_r.
  - eapply spec_bind; [by apply Hbody|].
    intros acc' s' _ HI'. simpl in HI'.
    eapply spec_post; [by apply IH|].
    intros b s'' _. by rewrite <- app_assoc.
Qed.

End Spec.

Lemma for_each_app {A B} (body : A -> B -> M B) (l1 l2 : list A) acc s :
  for_each (l1 ++ l2) body acc s =
  bind (for_each l1 body acc) (fun acc' => for_each l2 body acc') s.
Proof.
  revert acc s. induction l1 as [|a l1 IH]; intros acc s; [reflexivity|].
  simpl. unfold bind.
  destruct (body a acc s); [|reflexivity..].
  apply IH.
Qed.

(** ** What insertions preserve *)

Lemma triangles_of_calls_app l1 l2 :
  triangles_of_calls (l1 ++ l2) = triangles_of_calls l1 ++ triangles_of_calls l2.
Proof.
  induction l1 as [|c l1 IH]; [done|].
  destruct c; simpl; by rewrite IH.
Qed.

Lemma accumulating_init m : accumulating m init.
Proof.
  split.
  - intros k i. simpl. rewrite lookup_empty. split; [done|].
    by destruct i.
  - intros d v Hd. simpl in Hd. by apply elem_of_nil in Hd.
  - done.
  - constructor.
  - done.
Qed.

Section Steps.

Variable m : SubdivisionTriangleMesh.

Lemma vstep_consistent s s' : vstep m s s' -> consistent s -> consistent s'.
Proof.
  intros [s0 pos k Hnone _] Hc k' i. simpl.
  unfold consistent in Hc.
  unfold counterpart, Builder.find_existing in Hnone.
  destruct (decide (k = k')) as [<-|Hne].
  - rewrite lookup_insert_eq. split.
    + intros [= <-]. by rewrite lookup_app_r, Nat.sub_diag.
    + intros Hi. f_equal.
      destruct (decide (i < length (dst_vertices (mesh (bld s0))))) as [Hlt|Hge].
      * rewrite lookup_app_l in Hi by done.
        apply Hc in Hi. congruence.
      * destruct (decide (i = length (dst_vertices (mesh (bld s0)))))
          as [->|Hne]; [done|].
        rewrite (proj2 (lookup_ge_None _ i)) in Hi; [done|].
        rewrite length_app. simpl. lia.
  - rewrite lookup_insert_ne by done. rewrite Hc. split.
    + intros Hi. rewrite lookup_app_l; [done|].
      destruct (dst_vertices (mesh (bld s0)) !! i) eqn:E; [|done].
      by apply lookup_lt_Some in E.
    + intros Hi.
      destruct (decide (i < length (dst_vertices (mesh (bld s0))))) as [Hlt|Hge].
      * by rewrite lookup_app_l in Hi.
      * rewrite lookup_app_r in Hi by lia.
        destruct (i - length (dst_vertices (mesh (bld s0)))) as [|n];
          simpl in Hi; [congruence|].
        by destruct n.
Qed.

Lemma vstep_accumulating s s' :
  vstep m s s' -> accumulating m s -> accumulating m s'.
Proof.
  intros Hstep [Hc Hf Hl Hcalls Hopen].
  split; [by eapply vstep_consistent|..];
    destruct Hstep as [s0 pos k Hnone Hpos]; simpl.
  - intros d v Hd Hsrc. simpl in Hd.
    apply elem_of_app in Hd as [Hd|Hd]; [by apply Hf|].
    apply list_elem_of_singleton in Hd as ->. simpl in *. by apply Hpos.
  - rewrite triangles_of_calls_app. simpl. by rewrite app_nil_r.
  - apply Forall_app. split; [done|]. by repeat constructor.
  - done.
Qed.

Lemma tstep_accumulating s s' :
  tstep s s' -> accumulating m s -> accumulating m s'.
Proof.
  intros [s0 A B C] [Hc Hf Hl Hcalls Hopen]. split; simpl; try done.
  - rewrite triangles_of_calls_app, Hl. done.
  - apply Forall_app. split; [done|]. by repeat constructor.
Qed.

Lemma steps_accumulating s s' :
  rtc (step m) s s' -> accumulating m s -> accumulating m s'.
Proof.
  induction 1 as [|s1 s2 s3 [Hv|Ht] _ IH]; [done|..]; intros Hacc; apply IH.
  - by eapply vstep_accumulating.
  - by eapply tstep_accumulating.
Qed.

Lemma vsteps_steps s s' : rtc (vstep m) s s' -> rtc (step m) s s'.
Proof. apply rtc_subrel. intros ? ? ?. by left. Qed.

(** Counterparts, once made, stay. *)
Lemma steps_counterpart s s' k i :
  rtc (step m) s s' -> counterpart s k = Some i -> counterpart s' k = Some i.
Proof.
  induction 1 as [|s1 s2 s3 [Hv|Ht] _ IH]; [done|..]; intros Hk; apply IH.
  - destruct Hv as [s0 pos k' Hnone _].
    unfold counterpart, Builder.find_existing in *. simpl.
    rewrite lookup_insert_ne; [done|congruence].
  - by destruct Ht.
Qed.

Lemma vsteps_triangles s s' :
  rtc (vstep m) s s' ->
  dst_triangles (mesh (bld s')) = dst_triangles (mesh (bld s)).
Proof.
  induction 1 as [|s1 s2 s3 Hv _ IH]; [done|].
  rewrite IH. by destruct Hv.
Qed.

End Steps.

(** ** The loops of one face *)

Section Loops.

Variable m : SubdivisionTriangleMesh.
Variable w : ieee754.float.

Lemma edge_key_not_vertex e k v : edge_key m e = Some k -> k <> KVertex v.
Proof.
  unfold edge_key. intros H. apply bind_Some in H as (a & _ & H).
  apply bind_Some in H as (b & _ & [= <-]).
  unfold unordered. by case_decide.
Qed.

Lemma spec_insert_vertex s pos k :
  counterpart s k = None ->
  (forall v, k = KVertex v -> position_of m v = Some pos) ->
  spec (rtc (vstep m)) s (insert_vertex pos k s)
    (fun p s' => exists i, p = Some i /\ counterpart s' k = Some i).
Proof.
  intros Hnone Hpos. split.
  - apply rtc_once. exact (vstep_insert m s pos k Hnone Hpos).
  - eexists. split; [done|].
    unfold counterpart, Builder.find_existing. simpl.
    apply lookup_insert_eq.
Qed.

Lemma spec_vertex_loop_body v acc s :
  spec (rtc (vstep m)) s (vertex_loop_body m v acc s)
    (fun acc' s' =>
       exists i, acc' = acc ++ [Some i] /\
                 counterpart s' (KVertex v) = Some i).
Proof.
  unfold vertex_loop_body, bind at 1, find_dst_vertex_of.
  fold (counterpart s (KVertex v)).
  destruct (counterpart s (KVertex v)) as [i|] eqn:Hc.
  - apply spec_ret. eauto.
  - eapply spec_bind; [apply spec_defined|].
    intros pos s' _ [Hpos ->]. rewrite vertex_rule_position in Hpos.
    eapply spec_bind; [apply spec_insert_vertex; [done|]|].
    + by intros v' [= <-].
    + intros p s' _ (i & -> & Hi). apply spec_ret. eauto.
Qed.

Lemma spec_edge_loop_body e acc s :
  spec (rtc (vstep m)) s (edge_loop_body m w e acc s)
    (fun acc' s' =>
       exists k i, edge_key m e = Some k /\ acc' = acc ++ [Some i] /\
                   counterpart s' k = Some i).
Proof.
  unfold edge_loop_body.
  eapply spec_bind; [apply spec_defined|].
  intros k s' _ [Hk ->].
  unfold bind at 1, find_dst_vertex_of. fold (counterpart s k).
  destruct (counterpart s k) as [i|] eqn:Hc.
  - apply spec_ret. eauto.
  - eapply spec_bind; [apply spec_defined|].
    intros pos s' _ [Hpos ->].
    eapply spec_bind; [apply spec_insert_vertex; [done|]|].
    + intros v ->. by apply (edge_key_not_vertex _ _ v) in Hk.
    + intros p s' _ (i & -> & Hi). apply spec_ret. eauto.
Qed.

Lemma pushed_steps key s s' l acc :
  rtc (step m) s s' -> pushed key s l acc -> pushed key s' l acc.
Proof.
  intros Hs H. eapply Forall2_impl; [exact H|].
  intros a p (k & i & ? & ? & ?).
  exists k, i. eauto using steps_counterpart.
Qed.

Lemma spec_vertex_loop l s :
  spec (rtc (vstep m)) s (for_each l (vertex_loop_body m) [] s)
    (fun acc s' => pushed (fun v => Some (KVertex v)) s' l acc).
Proof.
  change l with ([] ++ l) at 2.
  apply (spec_for_each _
           (fun seen acc s' => pushed (fun v => Some (KVertex v)) s' seen acc));
    [|constructor].
  intros seen v acc s0 HI.
  eapply spec_post; [apply spec_vertex_loop_body|].
  intros acc' s' Hs (i & -> & Hi). apply Forall2_app.
  - eapply pushed_steps; [|done]. by apply vsteps_steps.
  - repeat constructor. eauto.
Qed.

Lemma spec_edge_loop l s :
  spec (rtc (vstep m)) s (for_each l (edge_loop_body m w) [] s)
    (fun acc s' => pushed (edge_key m) s' l acc).
Proof.
  change l with ([] ++ l) at 2.
  apply (spec_for_each _ (fun seen acc s' => pushed (edge_key m) s' seen acc));
    [|constructor].
  intros seen e acc s0 HI.
  eapply spec_post; [apply spec_edge_loop_body|].
  intros acc' s' Hs (k & i & Hk & -> & Hi). apply Forall2_app.
  - eapply pushed_steps; [|done]. by apply vsteps_steps.
  - repeat constructor. eauto.
Qed.

Lemma pushed_length key s l acc : pushed key s l acc -> length acc = length l.
Proof. intros H. symmetry. by eapply Forall2_length. Qed.

Lemma spec_face_vertices face s :
  spec (rtc (vstep m)) s (face_vertices m face s)
    (fun l s' =>
       s' = s /\
       exists V0 V1 V2,
         l = [V0; V1; V2] /\
         vertex_at m ([], start) (edge face) = Some V0 /\
         vertex_at m ([], end_) (edge face) = Some V1 /\
         vertex_at m ([next], end_) (edge face) = Some V2).
Proof.
  unfold face_vertices.
  eapply spec_bind; [apply spec_defined|]. intros V0 ? _ [H0 ->].
  eapply spec_bind; [apply spec_defined|]. intros V1 ? _ [H1 ->].
  eapply spec_bind; [apply spec_defined|]. intros V2 ? _ [H2 ->].
  apply spec_ret. split; [done|]. exists V0, V1, V2.
  rewrite arrow_field in H0, H1.
  unfold vertex_at, arrow in *. simpl in *.
  destruct (deref (edges m) (edge face)) as [E|]; [|done]. simpl in *.
  done.
Qed.

Lemma spec_face_edges face s :
  spec (rtc (vstep m)) s (face_edges m face s)
    (fun l s' =>
       s' = s /\
       exists E1 E2,
         l = [edge face; E1; E2] /\
         walk m [next] (edge face) = Some E1 /\
         walk m [prev] (edge face) = Some E2).
Proof.
  unfold face_edges.
  eapply spec_bind; [apply spec_defined|]. intros E1 ? _ [H1 ->].
  eapply spec_bind; [apply spec_defined|]. intros E2 ? _ [H2 ->].
  apply spec_ret. split; [done|]. exists E1, E2.
  rewrite arrow_field in H1, H2. simpl.
  destruct (deref (edges m) (edge face)) as [E|]; [|done]. simpl in *.
  done.
Qed.

Lemma spec_compute_vertices face s :
  spec (rtc (vstep m)) s (compute_vertices m w face s)
    (fun vs s' => computed m face vs.1 vs.2 s').
Proof.
  unfold compute_vertices.
  eapply spec_bind; [apply spec_face_vertices|].
  intros fvs ? _ (-> & V0 & V1 & V2 & -> & HV0 & HV1 & HV2).
  eapply spec_bind; [apply spec_vertex_loop|].
  intros vs s1 _ Hvs.
  eapply spec_bind; [apply spec_face_edges|].
  intros fes ? _ (-> & E1 & E2 & -> & HE1 & HE2).
  eapply spec_bind; [apply spec_edge_loop|].
  intros es s2 Hs Hes. apply spec_ret. simpl.
  eapply pushed_steps in Hvs; [|by apply vsteps_steps].
  unfold pushed in *.
  repeat match goal with
         | H : Forall2 _ (_ :: _) _ |- _ =>
             apply Forall2_cons_inv_l in H as (? & ? & (? & ? & ? & ? & ?) & ? & ?)
         | H : Forall2 _ [] _ |- _ => apply Forall2_nil_inv_l in H
         end.
  simplify_eq. unfold computed, face_keys.
  repeat (match goal with H : _ = Some _ |- _ => rewrite H end;
          cbn [mbind option_bind]).
  by repeat eexists.
Qed.

Lemma insert_triangles_run v0 v1 v2 m0 m1 m2 s :
  insert_triangles [v0; v1; v2] [m0; m1; m2] s =
  Ret tt (with_triangles
            [ (v0, m0, m2); (m0, v1, m1); (m2, m1, v2); (m0, m1, m2) ] s).
Proof.
  unfold insert_triangles, bind, at_, insert_triangle, ret, with_triangles,
    Builder.insert_triangle.
  simpl. rewrite <- !app_assoc. reflexivity.
Qed.

Lemma with_triangles_steps ts s : rtc (step m) s (with_triangles ts s).
Proof.
  revert s. induction ts as [|[[A B] C] ts IH]; intros s.
  - unfold with_triangles. simpl. rewrite !app_nil_r.
    by destruct s as [[[] ?] ?].
  - eapply rtc_l; [right; exact (tstep_insert s A B C)|].
    match goal with
    | |- rtc _ ?s1 ?s2 => assert (with_triangles ts s1 = s2) as <-
    end; [|apply IH].
    unfold with_triangles. simpl. by rewrite <- !app_assoc.
Qed.

End Loops.

(** ** The loop over the faces *)

Section Faces.

Variable m : SubdivisionTriangleMesh.
Variable w : ieee754.float.

Lemma face_keys_six f ks :
  face_keys m f = Some ks ->
  exists V0 V1 V2 E0 E1 E2, ks = [V0; V1; V2; E0; E1; E2].
Proof.
  unfold face_keys. intros H.
  repeat (apply bind_Some in H as (? & _ & H)).
  injection H as <-. by repeat eexists.
Qed.

Lemma covered_children s f :
  covered m s f ->
  length (children m s f) = 4 /\ Forall non_null (children m s f).
Proof.
  intros (ks & Hks & Hall).
  destruct (face_keys_six _ _ Hks) as (V0 & V1 & V2 & E0 & E1 & E2 & ->).
  unfold children. rewrite Hks. split; [done|].
  repeat match goal with
         | H : Forall _ (_ :: _) |- _ => apply Forall_cons in H as [? H]
         end.
  repeat constructor; simpl; done.
Qed.

Lemma covered_steps s s' f :
  rtc (step m) s s' -> covered m s f ->
  covered m s' f /\ children m s' f = children m s f.
Proof.
  intros Hs (ks & Hks & Hall).
  assert (Forall (fun k => counterpart s' k = counterpart s k) ks) as Heq.
  { eapply Forall_impl; [exact Hall|]. intros k [i Hi]. rewrite Hi.
    by eapply steps_counterpart. }
  split.
  - exists ks. split; [done|].
    eapply Forall_impl; [apply Forall_and; split; [exact Hall|exact Heq]|].
    simpl. intros k [? ->]. done.
  - destruct (face_keys_six _ _ Hks) as (V0 & V1 & V2 & E0 & E1 & E2 & ->).
    unfold children. rewrite Hks.
    repeat match goal with
           | H : Forall _ (_ :: _) |- _ => apply Forall_cons in H as [? H]
           end.
    congruence.
Qed.

Lemma spec_face_loop_body face s :
  spec (rtc (step m)) s (face_loop_body m w face tt s)
    (fun _ s' =>
       covered m s' face /\
       dst_triangles (mesh (bld s')) =
         dst_triangles (mesh (bld s)) ++ children m s' face).
Proof.
  pose proof (spec_compute_vertices m w face s) as H.
  unfold face_loop_body, bind.
  destruct (compute_vertices m w face s) as [[vs es] s1| |];
    simpl in H; [|done|by apply vsteps_steps].
  destruct H as [Hs (V0 & V1 & V2 & E0 & E1 & E2 & v0 & v1 & v2 & m0 & m1 & m2
                     & Hks & -> & -> & H0 & H1 & H2 & H3 & H4 & H5)].
  cbn [fst snd]. rewrite insert_triangles_run. simpl. split.
  - etrans; [by apply vsteps_steps|apply with_triangles_steps].
  - split.
    + exists [V0; V1; V2; E0; E1; E2]. split; [done|].
      repeat constructor; unfold counterpart in *; simpl; eauto.
    + rewrite (vsteps_triangles _ _ _ Hs). f_equal.
      unfold children. rewrite Hks.
      unfold counterpart, Builder.find_existing in *. simpl. congruence.
Qed.

Lemma flat_map_ext_Forall {A B} (f g : A -> list B) l :
  Forall (fun a => f a = g a) l -> flat_map f l = flat_map g l.
Proof. induction 1; simpl; congruence. Qed.

Lemma spec_face_loop l s0 :
  spec (rtc (step m)) s0 (for_each l (face_loop_body m w) tt s0)
    (fun _ s => subdivided m s0 l s).
Proof.
  change l with ([] ++ l) at 2.
  apply (spec_for_each _ (fun seen _ s => subdivided m s0 seen s)).
  - intros seen f [] s [Hcov Htri].
    eapply spec_post; [apply spec_face_loop_body|].
    intros _ s' Hs [Hf Hnew]. split.
    + apply Forall_app. split; [|by repeat constructor].
      eapply Forall_impl; [exact Hcov|].
      intros g Hg. by apply (covered_steps s s').
    + rewrite Hnew, Htri, flat_map_app. simpl.
      rewrite app_nil_r, <- app_assoc. do 2 f_equal.
      apply flat_map_ext_Forall.
      eapply Forall_impl; [exact Hcov|].
      intros g Hg. symmetry. by apply (covered_steps s s').
  - split; [constructor|]. simpl. by rewrite app_nil_r.
Qed.

End Faces.

(** ** The whole run *)

Section Run.

Variable m : SubdivisionTriangleMesh.
Variable w : ieee754.float.
Variable closed : bool.
Variable ok : DstMesh -> bool.

Lemma finalize_fails s :
  Builder.pairable closed (dst_triangles (mesh (bld s))) = false ->
  finalize closed s = Raise non_manifold_result (unpaired s).
Proof.
  intros H. unfold finalize, Builder.finalize. rewrite H.
  by destruct s as [[[] ?] ?].
Qed.

Lemma finalize_and_check s :
  Builder.pairable closed (dst_triangles (mesh (bld s))) = true ->
  (finalize closed;; check_mesh_invariants ok) s =
  if ok (mesh (bld (finished s))) then Ret tt (finished s)
  else Raise invariant_violation (finished s).
Proof.
  intros H. unfold bind, finalize, Builder.finalize. rewrite H.
  unfold check_mesh_invariants, finished, ended. simpl.
  by rewrite <- app_assoc.
Qed.

(** What follows the loop over the faces, from the state [s] it ends in. *)
Lemma after_the_loop s :
  (finalize closed;; check_mesh_invariants ok) s =
  if Builder.pairable closed (dst_triangles (mesh (bld s))) then
    if ok (mesh (bld (finished s))) then Ret tt (finished s)
    else Raise invariant_violation (finished s)
  else Raise non_manifold_result (unpaired s).
Proof.
  destruct (Builder.pairable closed (dst_triangles (mesh (bld s)))) eqn:H.
  - by apply finalize_and_check.
  - unfold bind. by rewrite finalize_fails.
Qed.

(** The run continues after the loop when the loop returns, and stops with
    it otherwise. *)
Lemma run_after_the_loop s :
  for_each (faces m) (face_loop_body m w) tt init = Ret tt s ->
  butterfly_subdivision m w closed ok empty_mesh =
  (finalize closed;; check_mesh_invariants ok) s.
Proof.
  intros H. unfold butterfly_subdivision. fold init. unfold bind at 1.
  by rewrite H.
Qed.

Lemma run_stops_with_the_loop :
  returns (for_each (faces m) (face_loop_body m w) tt init) = false ->
  butterfly_subdivision m w closed ok empty_mesh =
  for_each (faces m) (face_loop_body m w) tt init.
Proof.
  unfold butterfly_subdivision. fold init. unfold bind at 1.
  by destruct (for_each (faces m) (face_loop_body m w) tt init) as [[] ?| |].
Qed.

Lemma butterfly_subdivision_kind :
  run_kind m closed ok (butterfly_subdivision m w closed ok empty_mesh).
Proof.
  pose proof (spec_face_loop m w (faces m) init) as H.
  unfold butterfly_subdivision. fold init. unfold bind at 1.
  destruct (for_each (faces m) (face_loop_body m w) tt init) as [[] s| |];
    simpl in H; [|done|by constructor].
  destruct H as [Hs Hsub]. rewrite after_the_loop.
  destruct (Builder.pairable closed (dst_triangles (mesh (bld s)))) eqn:Hp;
    [|by apply run_unpaired].
  destruct (ok (mesh (bld (finished s)))) eqn:Hok.
  - by apply run_ret.
  - by apply run_raise.
Qed.

End Run.

(** ** Facts about lists of destination vertices *)

Lemma addr_inj a b : addr a = addr b -> a = b.
Proof. destruct a, b; simpl; congruence. Qed.

Lemma unordered_comm a b : unordered a b = unordered b a.
Proof.
  unfold unordered. repeat case_decide; try done; try lia.
  assert (a = b) as -> by (apply addr_inj; lia). done.
Qed.

Lemma filter_none {A : Type} (P : A -> Prop) `{!forall x, Decision (P x)} l :
  (forall x, x ∈ l -> ~ P x) -> filter P l = [].
Proof.
  induction l as [|a l IH]; intros Hl; [done|].
  rewrite filter_cons_False by (apply Hl; left).
  apply IH. intros x Hx. apply Hl. by right.
Qed.

Lemma filter_unique {A B : Type} `{EqDecision B} (f : A -> B) (l : list A) d :
  NoDup (f <$> l) -> d ∈ l -> filter (fun x => f x = f d) l = [d].
Proof.
  induction l as [|a l IH]; simpl; intros Hnd Hd.
  - by apply elem_of_nil in Hd.
  - apply NoDup_cons in Hnd as [Ha Hnd].
    assert (forall x, x ∈ l -> f x <> f a) as Hfresh.
    { intros x Hx E. apply Ha. rewrite <- E. by apply list_elem_of_fmap_2. }
    apply elem_of_cons in Hd as [->|Hd].
    + rewrite filter_cons_True by done. f_equal.
      apply filter_none. intros x Hx. by apply Hfresh.
    + rewrite filter_cons_False; [by apply IH|].
      intros E. by apply (Hfresh d).
Qed.

Lemma filter_at_most_one {A B : Type} `{EqDecision B} (f : A -> B) l k :
  NoDup (f <$> l) -> length (filter (fun x => f x = k) l) <= 1.
Proof.
  intros Hnd. destruct (filter (fun x => f x = k) l) as [|d r] eqn:E.
  - simpl. lia.
  - assert (d ∈ filter (fun x => f x = k) l) as Hd by (rewrite E; left).
    apply list_elem_of_filter in Hd as [<- Hd].
    rewrite (filter_unique f l d Hnd Hd) in E. injection E as <-. done.
Qed.

Lemma consistent_NoDup s :
  consistent s -> NoDup (source <$> dst_vertices (mesh (bld s))).
Proof.
  intros Hc. apply NoDup_alt. intros i j k Hi Hj.
  rewrite list_lookup_fmap in Hi, Hj.
  apply Hc in Hi, Hj. congruence.
Qed.

(** ** The claims about the driver *)

Section Claims.

Variable m : SubdivisionTriangleMesh.
Variable w : ieee754.float.
Variable closed : bool.
Variable ok : DstMesh -> bool.

Local Abbreviation run := (butterfly_subdivision m w closed ok empty_mesh).

(** The final state of every run is one of the accumulation phase, possibly
    followed by [finalize] and the check. *)
Lemma final_state_accumulated :
  exists s, accumulating m s /\
            (final_state run = s \/
             exists fin cs, final_state run = ended fin cs s).
Proof.
  destruct (butterfly_subdivision_kind m w closed ok)
    as [s Hs|s Hs _ _|s Hs _ _ _|s Hs _ _ _];
    exists s; (split; [eapply steps_accumulating, accumulating_init; done|]);
    simpl; eauto.
Qed.

Lemma run_defined_subdivided :
  is_defined run ->
  exists s fin cs, accumulating m s /\ subdivided m init (faces m) s /\
                   final_state run = ended fin cs s.
Proof.
  destruct (butterfly_subdivision_kind m w closed ok)
    as [s Hs|s Hs Hsub _|s Hs Hsub _ _|s Hs Hsub _ _];
    [done|..]; intros _; exists s; do 2 eexists;
    (split; [eapply steps_accumulating, accumulating_init; done|]); done.
Qed.

(** C2.  [vertex_rule] returns the position of the vertex it is given,
    unchanged, for every vertex of the source mesh; and every destination
    vertex that the driver makes for a source vertex [v] has exactly the
    position of [v]. *)
Theorem vertex_rule_preserves_position :
  (forall v vert,
      deref (vertices m) v = Some vert ->
      vertex_rule m v = Some (position vert)) /\
  (forall d v,
      d ∈ dst_vertices (mesh (bld (final_state run))) ->
      source d = KVertex v ->
      exists vert, deref (vertices m) v = Some vert /\
                   dst_position d = position vert).
Proof.
  split.
  - intros v vert H. rewrite vertex_rule_position. unfold position_of.
    by rewrite H.
  - intros d v Hd Hsrc.
    destruct final_state_accumulated as (s & Hacc & [E|(fin & cs & E)]);
      rewrite E in Hd;
      pose proof (acc_faithful _ _ Hacc d v Hd Hsrc) as Hp;
      unfold position_of in Hp;
      apply fmap_Some in Hp as (vert & ? & ?); eauto.
Qed.

(** C3.  In the final state of a run, no two destination vertices carry
    the same source key (a source vertex, or an unordered source edge), so
    at most one destination vertex is made for each; a half-edge and a
    half-edge with the endpoints swapped (its twin) have the same key and
    hence the same counterpart; and when the run is defined, each key of
    each face has exactly one destination vertex, the one every face that
    refers to the key receives. *)
Theorem one_destination_vertex_per_source :
  NoDup (source <$> dst_vertices (mesh (bld (final_state run)))) /\
  (forall k, length (made_for k (final_state run)) <= 1) /\
  (forall e t,
      start <$> deref (edges m) t = end_ <$> deref (edges m) e ->
      end_ <$> deref (edges m) t = start <$> deref (edges m) e ->
      edge_key m t = edge_key m e /\
      (counterpart (final_state run) <$> edge_key m t) =
      (counterpart (final_state run) <$> edge_key m e)) /\
  (is_defined run ->
   forall f ks k,
     f ∈ faces m -> face_keys m f = Some ks -> k ∈ ks ->
     exists i d,
       counterpart (final_state run) k = Some i /\
       dst_vertices (mesh (bld (final_state run))) !! i = Some d /\
       made_for k (final_state run) = [d]).
Proof.
  assert (NoDup (source <$> dst_vertices (mesh (bld (final_state run)))))
    as Hnd.
  { destruct final_state_accumulated as (s & Hacc & [E|(fin & cs & E)]);
      rewrite E; apply consistent_NoDup, Hacc. }
  split; [done|]. split; [|split].
  - intros k. by apply filter_at_most_one.
  - intros e t Hs He.
    assert (edge_key m t = edge_key m e) as ->; [|done].
    unfold edge_key. rewrite !arrow_field, Hs, He.
    destruct (deref (edges m) e) as [E|]; simpl; [|done].
    by rewrite unordered_comm.
  - intros Hdef f ks k Hf Hks Hk.
    destruct (run_defined_subdivided Hdef)
      as (s & fin & cs & Hacc & [Hcov _] & E).
    rewrite E in *.
    pose proof (proj1 (Forall_forall _ _) Hcov f Hf) as (ks' & Hks' & Hall).
    assert (ks' = ks) as -> by congruence.
    pose proof (proj1 (Forall_forall _ _) Hall k Hk) as [i Hi].
    pose proof (proj1 (acc_consistent _ _ Hacc k i) Hi) as Hd.
    apply fmap_Some in Hd as (d & Hd & ->).
    exists i, d. split; [done|]. split; [done|].
    apply (filter_unique source); [done|].
    by eapply list_elem_of_lookup_2.
Qed.

(** C4.  When the run is defined, the triangles of the destination mesh
    are, face by face in the order of the source faces, the four children
    (v0,m0,m2), (m0,v1,m1), (m2,m1,v2), (m0,m1,m2) over the counterparts of
    the face's corners and edges, none of them null: four per source face,
    4F in all. *)
Theorem four_children_per_face :
  is_defined run ->
  dst_triangles (mesh (bld (final_state run))) =
    flat_map (children m (final_state run)) (faces m) /\
  Forall (fun f => length (children m (final_state run) f) = 4 /\
                   Forall non_null (children m (final_state run) f))
         (faces m) /\
  length (dst_triangles (mesh (bld (final_state run)))) =
    4 * length (faces m).
Proof.
  intros Hdef.
  destruct (run_defined_subdivided Hdef)
    as (s & fin & cs & Hacc & [Hcov Htri] & E).
  rewrite E.
  assert (Forall (fun f => length (children m s f) = 4 /\
                           Forall non_null (children m s f)) (faces m))
    as Hfour.
  { eapply Forall_impl; [exact Hcov|]. apply covered_children. }
  split; [exact Htri|]. split; [exact Hfour|].
  change (dst_triangles (mesh (bld (ended fin cs s))))
    with (dst_triangles (mesh (bld s))).
  rewrite Htri. simpl. clear -Hfour.
  induction Hfour as [|f l [Hf _] _ IH]; [done|].
  simpl. rewrite length_app, Hf, IH. lia.
Qed.

(** C8, as amended.  A run that does not stop in undefined behaviour calls
    [finalize] exactly once, after the insertions of all faces (all 4F
    triangles among them).  When [finalize] fails, the run ends there, with
    that failure, and the checker is not called; when it succeeds, the
    checker is called next, once and last, on the finalized mesh, and the run
    returns when the checker accepts and ends with the checker's failure
    otherwise.  No insertion follows [finalize], and the checker never
    precedes it.  A run that stops in undefined behaviour has made insertions
    only. *)
Theorem finalize_once_then_check :
  (is_defined run ->
   exists pre post,
     calls (final_state run) = pre ++ CallFinalize :: post /\
     Forall is_insert pre /\
     triangles_of_calls pre =
       flat_map (children m (final_state run)) (faces m) /\
     match run with
     | Ret _ s =>
         post = [CallCheckMeshInvariants] /\
         finalized (mesh (bld s)) = true /\ ok (mesh (bld s)) = true
     | Raise x s =>
         (x = non_manifold_result /\ post = [] /\
          Builder.pairable closed (dst_triangles (mesh (bld s))) = false) \/
         (x = invariant_violation /\ post = [CallCheckMeshInvariants] /\
          finalized (mesh (bld s)) = true /\ ok (mesh (bld s)) = false)
     | Undef _ => False
     end) /\
  (forall s, run = Undef s -> Forall is_insert (calls s)).
Proof.
  destruct (butterfly_subdivision_kind m w closed ok)
    as [s Hs|s Hs [_ Htri] Hp|s Hs [_ Htri] Hp Hok|s Hs [_ Htri] Hp Hok];
    pose proof (steps_accumulating _ _ _ Hs (accumulating_init m)) as Hacc.
  - split; [done|]. intros ? [= <-]. apply Hacc.
  - split; [|done]. intros _. exists (calls s), [].
    split; [done|]. split; [apply Hacc|].
    split; [by rewrite (acc_logged _ _ Hacc)|]. left. done.
  - split; [|done]. intros _. exists (calls s), [CallCheckMeshInvariants].
    split; [done|]. split; [apply Hacc|].
    split; [by rewrite (acc_logged _ _ Hacc)|]. done.
  - split; [|done]. intros _. exists (calls s), [CallCheckMeshInvariants].
    split; [done|]. split; [apply Hacc|].
    split; [by rewrite (acc_logged _ _ Hacc)|]. right. done.
Qed.

(** C9.  For every face the two loops run over three elements and each
    iteration pushes one destination vertex, so both vectors hold three
    elements when the triangles are inserted, the four [insert_triangle]
    statements go through, and no run raises [out_of_range]. *)
Theorem vectors_hold_three_elements (face : Face) (s : State) :
  (forall l s', face_vertices m face s = Ret l s' -> length l = 3) /\
  (forall l s', face_edges m face s = Ret l s' -> length l = 3) /\
  (forall v acc s0 acc' s',
      vertex_loop_body m v acc s0 = Ret acc' s' ->
      length acc' = S (length acc)) /\
  (forall e acc s0 acc' s',
      edge_loop_body m w e acc s0 = Ret acc' s' ->
      length acc' = S (length acc)) /\
  (forall vs es s',
      compute_vertices m w face s = Ret (vs, es) s' ->
      length vs = 3 /\ length es = 3 /\
      exists s'', insert_triangles vs es s' = Ret tt s'') /\
  (forall x s', compute_vertices m w face s <> Raise x s') /\
  (forall x s', face_loop_body m w face tt s <> Raise x s') /\
  (forall s', run <> Raise out_of_range s').
Proof.
  repeat split.
  - intros l s' H. pose proof (spec_face_vertices m face s) as Hs.
    rewrite H in Hs. by destruct Hs as [_ (_ & ? & ? & ? & -> & _)].
  - intros l s' H. pose proof (spec_face_edges m face s) as Hs.
    rewrite H in Hs. by destruct Hs as [_ (_ & ? & ? & -> & _)].
  - intros v acc s0 acc' s' H.
    pose proof (spec_vertex_loop_body m v acc s0) as Hs.
    rewrite H in Hs. destruct Hs as [_ (i & -> & _)].
    rewrite length_app. simpl. lia.
  - intros e acc s0 acc' s' H.
    pose proof (spec_edge_loop_body m w e acc s0) as Hs.
    rewrite H in Hs. destruct Hs as [_ (k & i & _ & -> & _)].
    rewrite length_app. simpl. lia.
  - pose proof (spec_compute_vertices m w face s) as Hs.
    rewrite H in Hs. apply proj2 in Hs.
    by destruct Hs as (? & ? & ? & ? & ? & ? & ? & ? & ? & ? & ? & ?
                       & _ & [= ->] & _).
  - pose proof (spec_compute_vertices m w face s) as Hs.
    rewrite H in Hs. apply proj2 in Hs.
    by destruct Hs as (? & ? & ? & ? & ? & ? & ? & ? & ? & ? & ? & ?
                       & _ & _ & [= ->] & _).
  - pose proof (spec_compute_vertices m w face s) as Hs.
    rewrite H in Hs. apply proj2 in Hs.
    destruct Hs as (? & ? & ? & ? & ? & ? & ? & ? & ? & ? & ? & ?
                    & _ & [= ->] & [= ->] & _).
    rewrite insert_triangles_run. eauto.
  - intros x s' H. pose proof (spec_compute_vertices m w face s) as Hs.
    by rewrite H in Hs.
  - intros x s' H. pose proof (spec_face_loop_body m w face s) as Hs.
    by rewrite H in Hs.
  - intros s' H. destruct (butterfly_subdivision_kind m w closed ok); done.
Qed.

(** C7, as amended.  When a link or vertex of the stencil is absent,
    [edge_rule] yields no position: it substitutes no default.  The driver
    does not check for this: a pass that reaches such an edge, not yet
    computed, has undefined behaviour from that point, in the state built so
    far. *)
Theorem missing_link_is_undefined :
  (forall e, stencil_points m e = None -> edge_rule m e w = None) /\
  (forall e k acc s,
      edge_key m e = Some k -> counterpart s k = None ->
      stencil_points m e = None ->
      edge_loop_body m w e acc s = Undef s) /\
  (forall seen f rest s1 s2,
      faces m = seen ++ f :: rest ->
      for_each seen (face_loop_body m w) tt init = Ret tt s1 ->
      face_loop_body m w f tt s1 = Undef s2 ->
      run = Undef s2 /\ rtc (step m) s1 s2).
Proof.
  split; [|split].
  - intros e H. by rewrite edge_rule_stencil, H.
  - intros e k acc s Hk Hc H.
    unfold edge_loop_body, bind, defined, find_dst_vertex_of.
    rewrite Hk. fold (counterpart s k). rewrite Hc.
    by rewrite edge_rule_stencil, H.
  - intros seen f rest s1 s2 Hfaces Hseen Hf. split.
    + unfold butterfly_subdivision, bind. fold init.
      rewrite Hfaces, for_each_app. unfold bind.
      rewrite Hseen. simpl. unfold bind. by rewrite Hf.
    + pose proof (spec_face_loop_body m w f s1) as Hs.
      by rewrite Hf in Hs.
Qed.

End Claims.

(** ** The tetrahedron *)

Lemma returns_final_state (o : outcome unit) :
  returns o = true -> o = Ret tt (final_state o).
Proof. by destruct o as [[] ?| |]. Qed.

Lemma butterfly_subdivision_finished m w closed ok :
  returns (for_each (faces m) (face_loop_body m w) tt init) = true ->
  is_defined (butterfly_subdivision m w closed ok empty_mesh) /\
  exists fin cs,
    final_state (butterfly_subdivision m w closed ok empty_mesh) =
    ended fin cs (final_state (for_each (faces m) (face_loop_body m w) tt init)).
Proof.
  intros H%returns_final_state.
  rewrite (run_after_the_loop _ _ _ _ _ H), after_the_loop.
  destruct (Builder.pairable closed _); [destruct (ok _)|];
    (split; [done|]); unfold finished, unpaired; simpl; eauto.
Qed.

Lemma ended_vertices fin cs s :
  dst_vertices (mesh (bld (ended fin cs s))) = dst_vertices (mesh (bld s)).
Proof. reflexivity. Qed.

Lemma ended_triangles fin cs s :
  dst_triangles (mesh (bld (ended fin cs s))) = dst_triangles (mesh (bld s)).
Proof. reflexivity. Qed.

Section Tetrahedron.

Variables p0 p1 p2 p3 : glm.vec3.

Local Abbreviation T := (tetrahedron p0 p1 p2 p3).
Local Abbreviation loop :=
  (for_each (faces T) (face_loop_body T ieee754.zero) tt init).

(** What the edge rule gives with a zero weight for an edge from [a] to [b]
    with the apexes [c] and [d]: on the tetrahedron the second ring of an
    edge consists of its two apexes again. *)
Local Abbreviation blend a b c d :=
  (glm.Vec3 (axis glm.x ieee754.zero a b c d d d c c)
            (axis glm.y ieee754.zero a b c d d d c c)
            (axis glm.z ieee754.zero a b c d d d c c)).

Lemma tetrahedron_loop_returns : returns loop = true.
Proof. by vm_compute. Qed.

Lemma tetrahedron_triangles :
  length (dst_triangles (mesh (bld (final_state loop)))) = 16.
Proof. by vm_compute. Qed.

Lemma tetrahedron_vertices :
  dst_vertices (mesh (bld (final_state loop))) =
  [ corner_vertex p0 0; corner_vertex p1 1; corner_vertex p2 2;
    edge_vertex (blend p0 p1 p2 p3) 0 1;
    edge_vertex (blend p1 p2 p0 p3) 1 2;
    edge_vertex (blend p2 p0 p1 p3) 0 2;
    corner_vertex p3 3;
    edge_vertex (blend p0 p3 p1 p2) 0 3;
    edge_vertex (blend p3 p1 p0 p2) 1 3;
    edge_vertex (blend p3 p2 p1 p0) 2 3 ].
Proof.
  unfold face_loop_body, compute_vertices, edge_loop_body, edge_rule.
  (* the arithmetic of the edge rule is kept symbolic while the run is
     evaluated *)
  generalize axis. intros ax.
  lazymatch goal with
  | |- ?L = ?R =>
      let v := eval vm_compute in L in
      let v' := eval vm_compute in R in
      transitivity v; [vm_cast_no_check (eq_refl v)|];
      symmetry; transitivity v'; [vm_cast_no_check (eq_refl v')|]
  end.
  reflexivity.
Qed.

Lemma tetrahedron_edge_rule e a b c d :
  stencil_points T e = Some [a; b; c; d; d; d; c; c] ->
  edge_rule T e ieee754.zero = Some (blend a b c d).
Proof. intros H. rewrite edge_rule_stencil, H. reflexivity. Qed.

Lemma tetrahedron_midpoint e a b c d :
  stencil_points T e = Some [a; b; c; d; d; d; c; c] ->
  on_axes (fun k => doubles (k c)) -> on_axes (fun k => doubles (k d)) ->
  blend a b c d ≃ midpoint a b.
Proof.
  intros H (? & ? & ?) (? & ? & ?).
  destruct (zero_weight_midpoint T e ieee754.zero _ _ _ _ _ _ _ _ _
              eq_refl H (tetrahedron_edge_rule _ _ _ _ _ H))
    as (Hx & Hy & Hz).
  unfold no_overflow in *.
  repeat split; [apply Hx|apply Hy|apply Hz];
    repeat split; auto using doubles_finite.
Qed.

(** C5, as amended.  Refining the closed tetrahedron over any four
    positions with a zero weight is defined and gives 16 triangles and 10
    vertices: the four original vertices at their positions, and one vertex
    for each of the six unordered edges, at the position that the edge rule
    gives for the half-edge of it that is met first.  When no coordinate of
    the four positions overflows when doubled, that position is, on each
    axis, the number [(float)(x0 * 0.5 + x1 * 0.5)] over the edge's two
    endpoints: their midpoint after rounding. *)
Theorem tetrahedron_refined (closed : bool) (ok : DstMesh -> bool) :
  is_defined (butterfly_subdivision T ieee754.zero closed ok empty_mesh) /\
  length (dst_triangles (mesh (bld (final_state
    (butterfly_subdivision T ieee754.zero closed ok empty_mesh))))) = 16 /\
  exists m01 m12 m02 m03 m13 m23,
    dst_vertices (mesh (bld (final_state
      (butterfly_subdivision T ieee754.zero closed ok empty_mesh)))) =
    [ corner_vertex p0 0; corner_vertex p1 1; corner_vertex p2 2;
      edge_vertex m01 0 1; edge_vertex m12 1 2; edge_vertex m02 0 2;
      corner_vertex p3 3;
      edge_vertex m03 0 3; edge_vertex m13 1 3; edge_vertex m23 2 3 ] /\
    (edge_rule T (Some 0) ieee754.zero = Some m01 /\
     edge_rule T (Some 1) ieee754.zero = Some m12 /\
     edge_rule T (Some 2) ieee754.zero = Some m02 /\
     edge_rule T (Some 3) ieee754.zero = Some m03 /\
     edge_rule T (Some 4) ieee754.zero = Some m13 /\
     edge_rule T (Some 7) ieee754.zero = Some m23) /\
    (Forall (fun p => on_axes (fun c => doubles (c p))) [p0; p1; p2; p3] ->
     m01 ≃ midpoint p0 p1 /\ m12 ≃ midpoint p1 p2 /\ m02 ≃ midpoint p2 p0 /\
     m03 ≃ midpoint p0 p3 /\ m13 ≃ midpoint p3 p1 /\ m23 ≃ midpoint p3 p2).
Proof.
  destruct (butterfly_subdivision_finished T ieee754.zero closed ok
              tetrahedron_loop_returns) as (Hdef & fin & cs & E).
  split; [exact Hdef|].
  rewrite E, ended_vertices, ended_triangles.
  split; [apply tetrahedron_triangles|].
  do 6 eexists. split; [apply tetrahedron_vertices|]. split.
  - repeat apply conj; apply tetrahedron_edge_rule; reflexivity.
  - intros H.
    repeat match goal with
           | H : Forall _ (_ :: _) |- _ => apply Forall_cons in H as [? H]
           end.
    split; [|split; [|split; [|split; [|split]]]];
      [apply (tetrahedron_midpoint (Some 0))
      |apply (tetrahedron_midpoint (Some 1))
      |apply (tetrahedron_midpoint (Some 2))
      |apply (tetrahedron_midpoint (Some 3))
      |apply (tetrahedron_midpoint (Some 4))
      |apply (tetrahedron_midpoint (Some 7))];
      (reflexivity || assumption).
Qed.

End Tetrahedron.

(** * Concrete runs *)

(** Splitting a conjunction of facts about concrete runs, and evaluating
    each. *)
Ltac conjuncts :=
  repeat match goal with |- _ /\ _ => split end.

Ltac evaluate := vm_compute; reflexivity.

(** On the open triangle the first edge has no twin: its stencil does not
    resolve, the run stops in undefined behaviour after the three corner
    vertices were inserted, and nothing is reported to the caller: the
    fail-fast policy does not hold of the code. *)
Lemma open_triangle_not_fail_fast :
  stencil_points flat_triangle (Some 0) = None /\
  (exists s,
      butterfly_subdivision flat_triangle ieee754.zero true accept empty_mesh
      = Undef s /\
      length (dst_vertices (mesh (bld s))) = 3 /\
      dst_triangles (mesh (bld s)) = []) /\
  ~ fails_fast flat_triangle ieee754.zero true accept.
Proof.
  split; [reflexivity|]. split.
  - eexists. split; [by vm_compute|]. by vm_compute.
  - intros H. destruct (H (Some 0)) as (x & s & Hrun & _).
    + exists {| edge := Some 0 |}. split; [left|by left].
    + reflexivity.
    + vm_compute in Hrun. discriminate Hrun.
Qed.

(** With a zero weight the open triangle's edge still has no position,
    although both its endpoints are there. *)
Example edge_rule_open_triangle :
  edge_rule flat_triangle (Some 0) ieee754.zero = None /\
  position_of flat_triangle (Some 0) = Some (at_integers 0 0 0) /\
  position_of flat_triangle (Some 1) = Some (at_integers 1 0 0).
Proof. by vm_compute. Qed.

(** The rational numbers that the first coordinates of a list of positions
    stand for. *)
Local Abbreviation first_coordinates ps :=
  (mapM (fun p => ieee754.value (glm.x p)) ps).

(** On the unit tetrahedron, with the weight 1/16, no operation of the edge
    rule rounds, and the result is the weighted sum. *)
Example edge_rule_unit_tetrahedron :
  exists ps r xs x,
    stencil_points unit_tetrahedron (Some 0) = Some ps /\
    edge_rule unit_tetrahedron (Some 0) sixteenth = Some r /\
    first_coordinates ps = Some xs /\
    ieee754.value (glm.x r) = Some x /\
    (x == weighted_sum (weights (1 # 16)) xs)%Q.
Proof. do 4 eexists. conjuncts; evaluate. Qed.

(** On the thin tetrahedron, with the weight 1/16, the edge rule returns 1/2
    on the first axis for the edge from 1 to 2^-24, whose weighted sum is
    1/2 + 2^-25: the result of the source's arithmetic is not the weighted
    sum. *)
Lemma edge_rule_not_the_weighted_sum :
  exists ps r q xs x,
    stencil_points thin_tetrahedron (Some 0) = Some ps /\
    edge_rule thin_tetrahedron (Some 0) sixteenth = Some r /\
    ieee754.value sixteenth = Some q /\
    first_coordinates ps = Some xs /\
    ieee754.value (glm.x r) = Some x /\
    (q == 1 # 16)%Q /\ (x == 1 # 2)%Q /\
    ~ (x == weighted_sum (weights q) xs)%Q.
Proof.
  do 5 eexists. conjuncts; try evaluate.
  intros H. vm_compute in H. discriminate H.
Qed.

(** On the thin tetrahedron, refined with a zero weight, the vertex of the
    edge from 1 to 2^-24 is put at 1/2, which is not the midpoint
    1/2 + 2^-25 of the edge; and on the tetrahedron with the huge apex the
    vertex of the edge from 1 to 3 is put at NaN. *)
Lemma tetrahedron_midpoints_not_exact :
  (exists d p0 p1 x0 x1 x,
      dst_vertices (mesh (bld (final_state
        (butterfly_subdivision thin_tetrahedron ieee754.zero true accept
           empty_mesh)))) !! 3 = Some d /\
      source d = KEdge (Some 0) (Some 1) /\
      position_of thin_tetrahedron (Some 0) = Some p0 /\
      position_of thin_tetrahedron (Some 1) = Some p1 /\
      ieee754.value (glm.x p0) = Some x0 /\
      ieee754.value (glm.x p1) = Some x1 /\
      ieee754.value (glm.x (dst_position d)) = Some x /\
      ~ (x == 0.5 * x0 + 0.5 * x1)%Q) /\
  (exists d,
      dst_vertices (mesh (bld (final_state
        (butterfly_subdivision huge_apex ieee754.zero true accept
           empty_mesh)))) !! 3 = Some d /\
      source d = KEdge (Some 0) (Some 1) /\
      glm.x (dst_position d) = S754_nan).
Proof.
  split.
  - do 6 eexists. conjuncts; try evaluate.
    intros H. vm_compute in H. discriminate H.
  - eexists. conjuncts; evaluate.
Qed.

(** On the far tetrahedron, with the weight 1, the edge rule gives -1 for
    the half-edge from vertex 0 to vertex 1 and 2 for its twin, on the first
    axis; the weighted sum is 1. *)
Lemma edge_rule_differs_on_twin :
  twin <$> deref (edges far_tetrahedron) (Some 0) = Some (Some 5) /\
  twin <$> deref (edges far_tetrahedron) (Some 5) = Some (Some 0) /\
  exists ps r r' xs,
    stencil_points far_tetrahedron (Some 0) = Some ps /\
    edge_rule far_tetrahedron (Some 0) (ieee754.float_of_int 1) = Some r /\
    edge_rule far_tetrahedron (Some 5) (ieee754.float_of_int 1) = Some r' /\
    glm.x r = ieee754.float_of_int (-1) /\
    glm.x r' = ieee754.float_of_int 2 /\
    first_coordinates ps = Some xs /\
    (weighted_sum (weights 1) xs == 1)%Q.
Proof.
  split; [reflexivity|]. split; [reflexivity|].
  do 4 eexists. conjuncts; evaluate.
Qed.

(** Two tetrahedra with the same edge from 1 to 3 and different apexes: with
    a zero weight the edge rule gives 2 on the one and NaN on the other. *)
Lemma zero_weight_depends_on_apex :
  position_of near_apex (Some 0) = position_of huge_apex (Some 0) /\
  position_of near_apex (Some 1) = position_of huge_apex (Some 1) /\
  glm.x <$> edge_rule near_apex (Some 0) ieee754.zero
    = Some (ieee754.float_of_int 2) /\
  glm.x <$> edge_rule huge_apex (Some 0) ieee754.zero = Some S754_nan /\
  edge_rule near_apex (Some 0) ieee754.zero <>
  edge_rule huge_apex (Some 0) ieee754.zero.
Proof.
  conjuncts; try evaluate.
  intros H. vm_compute in H. discriminate H.
Qed.

(** On the open triangle the run stops before [finalize]: neither
    [finalize] nor the checker is called.  On the tetrahedron with every face
    listed twice [finalize] is called and fails, and the checker is not
    called. *)
Lemma finalize_not_in_every_execution :
  (exists s,
      butterfly_subdivision flat_triangle sixteenth true accept empty_mesh
      = Undef s /\
      (CallFinalize ∉ calls s) /\ (CallCheckMeshInvariants ∉ calls s)) /\
  (exists s,
      butterfly_subdivision doubled_tetrahedron sixteenth false accept
        empty_mesh = Raise non_manifold_result s /\
      last (calls s) = Some CallFinalize /\
      (CallCheckMeshInvariants ∉ calls s)).
Proof.
  split; eexists; (split; [evaluate|]); conjuncts; try evaluate;
    intros H; vm_compute in H;
    repeat (apply elem_of_cons in H as [H|H]; [discriminate H|]);
    by apply elem_of_nil in H.
Qed.

Lemma edge_rule_rounded_weighted_sum_witness :
  exists p0 p1 p2 p3 p4 p5 p6 p7,
    default [] (stencil_points unit_tetrahedron (Some 0)) =
      [p0; p1; p2; p3; p4; p5; p6; p7] /\
    edge_rule unit_tetrahedron (Some 0) sixteenth =
      Some (glm.Vec3
              (stencil_expression ieee sixteenth
                 (glm.x p0) (glm.x p1) (glm.x p2) (glm.x p3)
                 (glm.x p4) (glm.x p5) (glm.x p6) (glm.x p7))
              (stencil_expression ieee sixteenth
                 (glm.y p0) (glm.y p1) (glm.y p2) (glm.y p3)
                 (glm.y p4) (glm.y p5) (glm.y p6) (glm.y p7))
              (stencil_expression ieee sixteenth
                 (glm.z p0) (glm.z p1) (glm.z p2) (glm.z p3)
                 (glm.z p4) (glm.z p5) (glm.z p6) (glm.z p7))).
Proof.
  apply (edge_rule_rounded_weighted_sum unit_tetrahedron (Some 0) sixteenth).
  reflexivity.
Defined.

Lemma edge_rule_twin_witness :
  stencil_points unit_tetrahedron (Some 5) =
  Some [ at_integers 1 (-1) (-1); at_integers 1 1 1;
         at_integers (-1) (-1) 1; at_integers (-1) 1 (-1);
         at_integers (-1) 1 (-1); at_integers (-1) 1 (-1);
         at_integers (-1) (-1) 1; at_integers (-1) (-1) 1 ].
Proof.
  apply (edge_rule_twin unit_tetrahedron (Some 0) (Some 5) sixteenth
           (at_integers 1 1 1) (at_integers 1 (-1) (-1))
           (at_integers (-1) 1 (-1)) (at_integers (-1) (-1) 1)
           (at_integers (-1) (-1) 1) (at_integers (-1) (-1) 1)
           (at_integers (-1) 1 (-1)) (at_integers (-1) 1 (-1)));
    reflexivity.
Defined.

Lemma edge_rule_zero_weight_witness :
  exists p0 p1 p2 p3 p4 p5 p6 p7,
    default [] (stencil_points unit_tetrahedron (Some 0)) =
      [p0; p1; p2; p3; p4; p5; p6; p7] /\
    on_axes (fun c =>
      no_overflow c p2 p3 p4 p5 p6 p7 ->
      ieee754.same_number
        (c (default glm.zero (edge_rule unit_tetrahedron (Some 0) ieee754.zero)))
        (float_midpoint (c p0) (c p1))).
Proof.
  apply (proj2 (edge_rule_zero_weight unit_tetrahedron (Some 0))
           ieee754.zero); reflexivity.
Defined.

Lemma tetrahedron_refined_witness :
  exists m01 m12 m02 m03 m13 m23,
    dst_vertices (mesh (bld (final_state
      (butterfly_subdivision unit_tetrahedron ieee754.zero true accept
         empty_mesh)))) =
    [ corner_vertex (at_integers 1 1 1) 0;
      corner_vertex (at_integers 1 (-1) (-1)) 1;
      corner_vertex (at_integers (-1) 1 (-1)) 2;
      edge_vertex m01 0 1; edge_vertex m12 1 2; edge_vertex m02 0 2;
      corner_vertex (at_integers (-1) (-1) 1) 3;
      edge_vertex m03 0 3; edge_vertex m13 1 3; edge_vertex m23 2 3 ] /\
    m01 ≃ midpoint (at_integers 1 1 1) (at_integers 1 (-1) (-1)).
Proof.
  destruct (tetrahedron_refined
              (at_integers 1 1 1) (at_integers 1 (-1) (-1))
              (at_integers (-1) 1 (-1)) (at_integers (-1) (-1) 1)
              true accept)
    as (_ & _ & m01 & m12 & m02 & m03 & m13 & m23 & Hv & _ & Hmid).
  exists m01, m12, m02, m03, m13, m23. split; [exact Hv|].
  apply Hmid. repeat constructor.
Defined.

Lemma vertex_rule_preserves_position_witness :
  vertex_rule unit_tetrahedron (Some 1) = Some (at_integers 1 (-1) (-1)).
Proof.
  apply (proj1 (vertex_rule_preserves_position unit_tetrahedron sixteenth
                  true accept)
           (Some 1) {| position := at_integers 1 (-1) (-1) |}).
  reflexivity.
Defined.

Lemma one_destination_vertex_per_source_witness :
  exists i d,
    counterpart (final_state
      (butterfly_subdivision unit_tetrahedron sixteenth true accept empty_mesh))
      (KEdge (Some 0) (Some 1)) = Some i /\
    dst_vertices (mesh (bld (final_state
      (butterfly_subdivision unit_tetrahedron sixteenth true accept empty_mesh))))
      !! i = Some d /\
    made_for (KEdge (Some 0) (Some 1)) (final_state
      (butterfly_subdivision unit_tetrahedron sixteenth true accept empty_mesh))
    = [d].
Proof.
  apply (proj2 (proj2 (proj2
           (one_destination_vertex_per_source unit_tetrahedron sixteenth
              true accept)))
           ltac:(by vm_compute)
           {| edge := Some 0 |}
           (default [] (face_keys unit_tetrahedron {| edge := Some 0 |}))).
  - left.
  - reflexivity.
  - vm_compute. do 3 right. left.
Defined.

Lemma four_children_per_face_witness :
  is_defined
    (butterfly_subdivision unit_tetrahedron sixteenth true accept empty_mesh) /\
  length (dst_triangles (mesh (bld (final_state
    (butterfly_subdivision unit_tetrahedron sixteenth true accept
       empty_mesh))))) =
  4 * length (faces unit_tetrahedron).
Proof.
  assert (is_defined
            (butterfly_subdivision unit_tetrahedron sixteenth true accept
               empty_mesh))
    as Hdef by (by vm_compute).
  split; [exact Hdef|].
  apply (four_children_per_face unit_tetrahedron sixteenth true accept Hdef).
Defined.

Lemma finalize_once_then_check_witness :
  returns
    (butterfly_subdivision unit_tetrahedron sixteenth true accept empty_mesh)
  = true /\
  exists pre post,
    calls (final_state
      (butterfly_subdivision unit_tetrahedron sixteenth true accept
         empty_mesh)) = pre ++ CallFinalize :: post /\
    Forall is_insert pre /\
    length (triangles_of_calls pre) = 16.
Proof.
  split; [by vm_compute|].
  destruct (proj1 (finalize_once_then_check unit_tetrahedron sixteenth true
                     accept) ltac:(by vm_compute))
    as (pre & post & Hcalls & Hpre & Htri & _).
  exists pre, post. split; [exact Hcalls|]. split; [exact Hpre|].
  rewrite Htri. by vm_compute.
Defined.

Lemma vectors_hold_three_elements_witness :
  length [Some 0; Some 1; Some 2] = 3 /\
  length [Some 3; Some 4; Some 5] = 3 /\
  exists s'',
    insert_triangles [Some 0; Some 1; Some 2] [Some 3; Some 4; Some 5]
      (final_state
         (compute_vertices unit_tetrahedron sixteenth {| edge := Some 0 |} init))
    = Ret tt s''.
Proof.
  apply (proj1 (proj2 (proj2 (proj2 (proj2
           (vectors_hold_three_elements unit_tetrahedron sixteenth true accept
              {| edge := Some 0 |} init)))))).
  vm_compute. reflexivity.
Defined.

Lemma missing_link_is_undefined_witness :
  edge_loop_body flat_triangle ieee754.zero (Some 0) [] init = Undef init.
Proof.
  apply (proj1 (proj2 (missing_link_is_undefined flat_triangle ieee754.zero
                         true accept))
           (Some 0) (KEdge (Some 0) (Some 1)) [] init); reflexivity.
Defined.

(** * Further properties of the driver *)

(** ** Where the destination vertices come from *)

Lemma spec_weaken {A} (R R' : relation State) s (o : outcome A) Q :
  (forall s', R s s' -> R' s s') -> spec R s o Q -> spec R' s o Q.
Proof.
  intros H. destruct o as [a s'| |]; simpl; [|done|by apply H].
  intros [? ?]. split; [by apply H|done].
Qed.

Lemma spec_for_each_Forall {A B} (R : relation State) `{!PreOrder R}
    (P : A -> Prop) (body : A -> B -> M B) (l : list A) acc s :
  Forall P l ->
  (forall a acc s, P a -> spec R s (body a acc s) (fun _ _ => True)) ->
  spec R s (for_each l body acc s) (fun _ _ => True).
Proof.
  intros Hl Hbody. revert acc s.
  induction Hl as [|a l Ha _ IH]; intros acc s; cbn [for_each].
  - by apply spec_ret.
  - eapply spec_bind; [by apply Hbody|]. intros acc' s' _ _. apply IH.
Qed.

Section Provenance.

Variable m : SubdivisionTriangleMesh.
Variable w : ieee754.float.

Lemma rstep_faces fs fs' s s' :
  fs ⊆ fs' -> rstep m w fs s s' -> rstep m w fs' s s'.
Proof.
  intros Hsub [s0 d Hd|s0 A B C]; [|constructor].
  constructor. destruct Hd as [(f & v & ? & ?)|(f & e & ? & ?)];
    [left; exists f, v|right; exists f, e]; split; auto.
Qed.

Lemma rsteps_placed fs s s' :
  rtc (rstep m w fs) s s' ->
  Forall (placed_by_rules m w fs) (dst_vertices (mesh (bld s))) ->
  Forall (placed_by_rules m w fs) (dst_vertices (mesh (bld s'))).
Proof.
  induction 1 as [|s1 s2 s3 Hstep _ IH]; [done|]. intros H. apply IH.
  destruct Hstep as [s0 d Hd|s0 A B C]; simpl; [|done].
  apply Forall_app. split; [done|]. constructor; [|done].
  by destruct d.
Qed.

Lemma rspec_insert fs (d : DstVertex) s :
  placed_by_rules m w fs d ->
  spec (rtc (rstep m w fs)) s
    (insert_vertex (dst_position d) (source d) s) (fun _ _ => True).
Proof. intros Hd. split; [|done]. apply rtc_once. by constructor. Qed.

Lemma rspec_vertex_loop_body f v acc s :
  corner_of m f v ->
  spec (rtc (rstep m w [f])) s (vertex_loop_body m v acc s) (fun _ _ => True).
Proof.
  intros Hv. unfold vertex_loop_body, bind at 1, find_dst_vertex_of.
  destruct (Builder.find_existing (KVertex v) (bld s)); [by apply spec_ret|].
  eapply spec_bind; [apply spec_defined|]. intros pos ? _ [Hpos ->].
  eapply spec_bind;
    [apply (rspec_insert [f] {| dst_position := pos; source := KVertex v |})|].
  - left. exists f, v. repeat split; [left|done..].
  - intros. by apply spec_ret.
Qed.

Lemma rspec_edge_loop_body f e acc s :
  edge_of m f e ->
  spec (rtc (rstep m w [f])) s (edge_loop_body m w e acc s) (fun _ _ => True).
Proof.
  intros He. unfold edge_loop_body.
  eapply spec_bind; [apply spec_defined|]. intros k ? _ [Hk ->].
  unfold bind at 1, find_dst_vertex_of.
  destruct (Builder.find_existing k (bld s)); [by apply spec_ret|].
  eapply spec_bind; [apply spec_defined|]. intros pos ? _ [Hpos ->].
  eapply spec_bind;
    [apply (rspec_insert [f] {| dst_position := pos; source := k |})|].
  - right. exists f, e. repeat split; [left|done..].
  - intros. by apply spec_ret.
Qed.

Lemma rspec_face_vertices (R : relation State) `{!PreOrder R} f s :
  spec R s (face_vertices m f s)
    (fun l s' => s' = s /\ Forall (corner_of m f) l).
Proof.
  unfold face_vertices.
  eapply spec_bind; [apply spec_defined|]. intros V0 ? _ [H0 ->].
  eapply spec_bind; [apply spec_defined|]. intros V1 ? _ [H1 ->].
  eapply spec_bind; [apply spec_defined|]. intros V2 ? _ [H2 ->].
  apply spec_ret. split; [done|].
  rewrite arrow_field in H0, H1.
  unfold corner_of, vertex_at, arrow in *. simpl in *.
  destruct (deref (edges m) (edge f)) as [E|]; [|done]. simpl in *.
  destruct (deref (edges m) (next E)) as [E'|]; [|done]. simpl in *.
  repeat apply Forall_cons_2; auto.
Qed.

Lemma rspec_face_edges (R : relation State) `{!PreOrder R} f s :
  spec R s (face_edges m f s)
    (fun l s' => s' = s /\ Forall (edge_of m f) l).
Proof.
  unfold face_edges.
  eapply spec_bind; [apply spec_defined|]. intros E1 ? _ [H1 ->].
  eapply spec_bind; [apply spec_defined|]. intros E2 ? _ [H2 ->].
  apply spec_ret. split; [done|].
  rewrite arrow_field in H1, H2. unfold edge_of. simpl.
  destruct (deref (edges m) (edge f)) as [E|]; [|done]. simpl in *.
  repeat apply Forall_cons_2; auto.
Qed.

Lemma rspec_compute_vertices f s :
  spec (rtc (rstep m w [f])) s (compute_vertices m w f s) (fun _ _ => True).
Proof.
  unfold compute_vertices.
  eapply spec_bind; [apply rspec_face_vertices; apply _|].
  intros fvs ? _ [-> Hfvs].
  eapply spec_bind.
  { apply (spec_for_each_Forall _ (corner_of m f)); [done|].
    intros. by apply rspec_vertex_loop_body. }
  intros vs s1 _ _.
  eapply spec_bind; [apply rspec_face_edges; apply _|].
  intros fes ? _ [-> Hfes].
  eapply spec_bind.
  { apply (spec_for_each_Forall _ (edge_of m f)); [done|].
    intros. by apply rspec_edge_loop_body. }
  intros. by apply spec_ret.
Qed.

Lemma with_triangles_rsteps fs ts s :
  rtc (rstep m w fs) s (with_triangles ts s).
Proof.
  revert s. induction ts as [|[[A B] C] ts IH]; intros s.
  - unfold with_triangles. simpl. rewrite !app_nil_r.
    by destruct s as [[[] ?] ?].
  - eapply rtc_l; [exact (rstep_triangle m w fs s A B C)|].
    match goal with
    | |- rtc _ ?s1 ?s2 => assert (with_triangles ts s1 = s2) as <-
    end; [|apply IH].
    unfold with_triangles. simpl. by rewrite <- !app_assoc.
Qed.

Lemma rspec_face_loop_body f s :
  spec (rtc (rstep m w [f])) s (face_loop_body m w f tt s) (fun _ _ => True).
Proof.
  pose proof (rspec_compute_vertices f s) as Hr.
  pose proof (spec_compute_vertices m w f s) as Hc.
  unfold face_loop_body, bind.
  destruct (compute_vertices m w f s) as [[vs es] s1| |]; [|done..].
  destruct Hr as [Hr _].
  destruct Hc as [_ (? & ? & ? & ? & ? & ? & ? & ? & ? & ? & ? & ?
                     & _ & Hvs & Hes & _)].
  simpl in Hvs, Hes. subst vs es. cbn [fst snd].
  rewrite insert_triangles_run. split; [|done].
  etrans; [exact Hr|apply with_triangles_rsteps].
Qed.

Lemma rspec_face_loop s :
  spec (rtc (rstep m w (faces m))) s
    (for_each (faces m) (face_loop_body m w) tt s) (fun _ _ => True).
Proof.
  apply (spec_for_each_Forall _ (fun f => f ∈ faces m)).
  - by apply Forall_forall.
  - intros f [] s0 Hf.
    eapply spec_weaken; [|apply rspec_face_loop_body].
    intros s'. apply rtc_subrel. intros s1 s2. apply rstep_faces.
    intros g Hg. apply list_elem_of_singleton in Hg as ->. done.
Qed.

(** The final state of every run is reached by insertions of vertices placed
    by the rules, and of triangles, possibly followed by [finalize] and the
    check. *)
Lemma run_rsteps (closed : bool) (ok : DstMesh -> bool) :
  exists s,
    rtc (rstep m w (faces m)) init s /\
    dst_vertices (mesh (bld
      (final_state (butterfly_subdivision m w closed ok empty_mesh)))) =
    dst_vertices (mesh (bld s)).
Proof.
  pose proof (rspec_face_loop init) as H.
  destruct (for_each (faces m) (face_loop_body m w) tt init)
    as [[] s|x s|s] eqn:E; [|done|]; exists s.
  - destruct H as [H _]. split; [done|].
    rewrite (run_after_the_loop _ _ _ _ _ E), after_the_loop.
    by destruct (Builder.pairable _ _); [destruct (ok _)|].
  - split; [done|]. rewrite run_stops_with_the_loop; by rewrite E.
Qed.

End Provenance.

(** X4.  Every vertex of the destination mesh, in every run, is what one of
    the two rules gives for the source mesh: either it is filed under a corner
    [v] of a source face and sits where [vertex_rule v] puts it, or it is
    filed under the key of a half-edge [e] of a source face and sits where
    [edge_rule e w] puts it.  Nothing else is ever inserted. *)
Theorem destination_vertices_placed_by_rules (m : SubdivisionTriangleMesh)
    (w : ieee754.float) (closed : bool) (ok : DstMesh -> bool)
    (d : DstVertex) :
  d ∈ dst_vertices (mesh (bld
        (final_state (butterfly_subdivision m w closed ok empty_mesh)))) ->
  placed_by_rules m w (faces m) d.
Proof.
  destruct (run_rsteps m w closed ok) as (s & Hs & ->).
  revert d. apply Forall_forall.
  apply (rsteps_placed m w _ _ _ Hs). constructor.
Qed.

(** ** The vertices and triangles of a defined run *)

Section DefinedRun.

Variable m : SubdivisionTriangleMesh.
Variable w : ieee754.float.
Variable closed : bool.
Variable ok : DstMesh -> bool.

Local Abbreviation run := (butterfly_subdivision m w closed ok empty_mesh).

Lemma face_keys_inv f ks :
  face_keys m f = Some ks ->
  exists V0 V1 V2 E1 E2 k0 k1 k2,
    vertex_at m ([], start) (edge f) = Some V0 /\
    vertex_at m ([], end_) (edge f) = Some V1 /\
    vertex_at m ([next], end_) (edge f) = Some V2 /\
    walk m [next] (edge f) = Some E1 /\
    walk m [prev] (edge f) = Some E2 /\
    edge_key m (edge f) = Some k0 /\
    edge_key m E1 = Some k1 /\
    edge_key m E2 = Some k2 /\
    ks = [KVertex V0; KVertex V1; KVertex V2; k0; k1; k2].
Proof.
  unfold face_keys. intros H.
  apply bind_Some in H as (V0 & ? & H). apply bind_Some in H as (V1 & ? & H).
  apply bind_Some in H as (V2 & ? & H). apply bind_Some in H as (E1 & ? & H).
  apply bind_Some in H as (E2 & ? & H). apply bind_Some in H as (k0 & ? & H).
  apply bind_Some in H as (k1 & ? & H). apply bind_Some in H as (k2 & ? & H).
  injection H as <-. by exists V0, V1, V2, E1, E2, k0, k1, k2.
Qed.

Lemma corner_key_in f v ks :
  face_keys m f = Some ks -> corner_of m f v -> KVertex v ∈ ks.
Proof.
  intros (V0 & V1 & V2 & E1 & E2 & k0 & k1 & k2 & H0 & H1 & H2 & _
          & _ & _ & _ & _ & ->)%face_keys_inv [H|[H|H]].
  - assert (v = V0) as -> by congruence. set_solver.
  - assert (v = V1) as -> by congruence. set_solver.
  - assert (v = V2) as -> by congruence. set_solver.
Qed.

Lemma edge_key_in f e k ks :
  face_keys m f = Some ks -> edge_of m f e -> edge_key m e = Some k -> k ∈ ks.
Proof.
  intros (V0 & V1 & V2 & E1 & E2 & k0 & k1 & k2 & _ & _ & _ & HE1
          & HE2 & Hk0 & Hk1 & Hk2 & ->)%face_keys_inv [->|[H|H]] Hk.
  - assert (k = k0) as -> by congruence. set_solver.
  - assert (e = E1) as -> by congruence.
    assert (k = k1) as -> by congruence. set_solver.
  - assert (e = E2) as -> by congruence.
    assert (k = k2) as -> by congruence. set_solver.
Qed.

(** A key with a counterpart is the back-reference of the vertex it is
    mapped to, which exists. *)
Lemma counterpart_vertex s k i :
  consistent s -> counterpart s k = Some i ->
  exists d, dst_vertices (mesh (bld s)) !! i = Some d /\ source d = k.
Proof.
  intros Hc Hi. apply Hc in Hi. apply fmap_Some in Hi as (d & ? & ->). eauto.
Qed.

Lemma counterpart_inj s k k' i :
  consistent s -> counterpart s k = Some i -> counterpart s k' = Some i ->
  k = k'.
Proof. intros Hc Hk Hk'. apply Hc in Hk, Hk'. congruence. Qed.

(** X5.  In a defined run the destination mesh has exactly one vertex for
    each distinct key of the source faces (each distinct corner, each distinct
    unordered edge) and no other vertex: the back-references of its vertices
    are a permutation of the keys of the faces, so there are as many vertices
    as distinct keys. *)
Theorem destination_vertices_are_the_keys :
  is_defined run ->
  source <$> dst_vertices (mesh (bld (final_state run))) ≡ₚ mesh_keys m /\
  length (dst_vertices (mesh (bld (final_state run)))) = length (mesh_keys m).
Proof.
  intros Hdef.
  assert (source <$> dst_vertices (mesh (bld (final_state run)))
          ≡ₚ mesh_keys m) as Hperm.
  { destruct (run_defined_subdivided m w closed ok Hdef)
      as (s & fin & cs & Hacc & [Hcov _] & E).
    apply NoDup_Permutation.
    - rewrite E. apply consistent_NoDup, Hacc.
    - apply NoDup_remove_dups.
    - intros k. unfold mesh_keys.
      rewrite elem_of_remove_dups, list_elem_of_bind. split.
      + intros Hk. apply list_elem_of_fmap in Hk as (d & -> & Hd).
        destruct (run_rsteps m w closed ok) as (s' & Hs' & Ev).
        rewrite Ev in Hd.
        apply (proj1 (Forall_forall _ _)
                 (rsteps_placed m w _ _ _ Hs' (Forall_nil_2 _))) in Hd.
        destruct Hd as [(f & v & Hf & Hv & Hsrc & _)|(f & e & Hf & He & Hk & _)];
          exists f; (split; [|done]);
          destruct (proj1 (Forall_forall _ _) Hcov f Hf) as (ks & Hks & _);
          rewrite Hks; simpl.
        * rewrite Hsrc. by eapply corner_key_in.
        * by eapply edge_key_in.
      + intros (f & Hk & Hf).
        destruct (proj1 (Forall_forall _ _) Hcov f Hf) as (ks & Hks & Hall).
        rewrite Hks in Hk. simpl in Hk.
        destruct (proj1 (Forall_forall _ _) Hall k Hk) as [i Hi].
        destruct (counterpart_vertex s k i (acc_consistent _ _ Hacc) Hi)
          as (d & Hd & <-).
        rewrite E. apply list_elem_of_fmap_2.
        by eapply list_elem_of_lookup_2. }
  split; [done|]. apply Permutation_length in Hperm.
  by rewrite length_fmap in Hperm.
Qed.

(** X6.  In a defined run every triangle of the destination mesh has three
    non-null corners that are indices of vertices of that mesh: no triangle
    refers to a vertex that was not inserted. *)
Theorem triangles_in_range :
  is_defined run ->
  Forall (in_range (length (dst_vertices (mesh (bld (final_state run))))))
         (dst_triangles (mesh (bld (final_state run)))).
Proof.
  intros Hdef.
  destruct (run_defined_subdivided m w closed ok Hdef)
    as (s & fin & cs & Hacc & [Hcov Htri] & ->).
  rewrite ended_vertices, ended_triangles, Htri. simpl.
  apply Forall_flat_map. eapply Forall_impl; [exact Hcov|].
  intros f (ks & Hks & Hall).
  destruct (face_keys_six _ _ _ Hks) as (V0 & V1 & V2 & E0 & E1 & E2 & ->).
  unfold children. rewrite Hks.
  repeat match goal with
         | H : Forall _ (_ :: _) |- _ => apply Forall_cons in H as [[? ?] H]
         end.
  repeat match goal with
         | H : counterpart s _ = Some _ |- _ =>
             rewrite H;
             apply (counterpart_vertex _ _ _ (acc_consistent _ _ Hacc))
               in H as (? & ?%lookup_lt_Some & _)
         end.
  repeat apply Forall_cons_2; [..|apply Forall_nil_2];
    do 3 eexists; (split; [reflexivity|done]).
Qed.

(** X7.  In a defined run, a face whose three edges are three different
    unordered edges gets four child triangles with three distinct corners
    each: no child triangle is degenerate. *)
Theorem children_have_distinct_corners (f : Face) (ks : list SrcKey) :
  is_defined run ->
  f ∈ faces m ->
  face_keys m f = Some ks ->
  NoDup (drop 3 ks) ->
  Forall distinct_corners (children m (final_state run) f).
Proof.
  intros Hdef Hf Hks Hnd.
  destruct (run_defined_subdivided m w closed ok Hdef)
    as (s & fin & cs & Hacc & [Hcov _] & ->).
  change (children m (ended fin cs s) f) with (children m s f).
  destruct (proj1 (Forall_forall _ _) Hcov f Hf) as (ks' & Hks' & Hall).
  assert (ks' = ks) as -> by congruence.
  destruct (face_keys_inv _ _ Hks)
    as (V0 & V1 & V2 & E1 & E2 & k0 & k1 & k2 & _ & _ & _ & _ & _
        & Hk0 & Hk1 & Hk2 & ->).
  unfold children. rewrite Hks. simpl in Hnd.
  apply NoDup_cons in Hnd as [Hn0 Hnd]. apply NoDup_cons in Hnd as [Hn1 _].
  assert (k0 <> k1 /\ k0 <> k2 /\ k1 <> k2) as (? & ? & ?) by set_solver.
  pose proof (edge_key_not_vertex _ _ _ V0 Hk0).
  pose proof (edge_key_not_vertex _ _ _ V0 Hk2).
  pose proof (edge_key_not_vertex _ _ _ V1 Hk0).
  pose proof (edge_key_not_vertex _ _ _ V1 Hk1).
  pose proof (edge_key_not_vertex _ _ _ V2 Hk1).
  pose proof (edge_key_not_vertex _ _ _ V2 Hk2).
  repeat match goal with
         | H : Forall _ (_ :: _) |- _ => apply Forall_cons in H as [[? ?] H]
         end.
  pose proof (fun k k' i => counterpart_inj s k k' i (acc_consistent _ _ Hacc))
    as Hinj.
  repeat match goal with
         | H : counterpart s _ = Some _ |- _ => rewrite H; revert H
         end.
  intros. unfold distinct_corners.
  repeat apply Forall_cons_2; [..|apply Forall_nil_2]; simpl;
    repeat split; intros [= <-]; eauto using eq_sym.
Qed.

End DefinedRun.

(** ** Two runs side by side *)

Section Sim.

Variable V : glm.vec3 -> glm.vec3 -> Prop.

Lemma sim_ret {A} (VA : A -> A -> Prop) a a' s s' :
  VA a a' -> rel_state V s s' -> sim V VA (ret a s) (ret a' s').
Proof. by split. Qed.

Lemma sim_bind {A B} (VA : A -> A -> Prop) (VB : B -> B -> Prop)
    (c c' : M A) (k k' : A -> M B) s s' :
  sim V VA (c s) (c' s') ->
  (forall a a' s1 s1',
      VA a a' -> rel_state V s1 s1' -> sim V VB (k a s1) (k' a' s1')) ->
  sim V VB (bind c k s) (bind c' k' s').
Proof.
  unfold bind. destruct (c s), (c' s'); simpl; try done.
  intros [? ?] Hk. by apply Hk.
Qed.

Lemma sim_defined {A} (VA : A -> A -> Prop) (o o' : option A) s s' :
  option_Forall2 VA o o' -> rel_state V s s' ->
  sim V VA (defined o s) (defined o' s').
Proof. by intros [a a' Ha|] Hs. Qed.

Lemma sim_for_each {A B} (VB : B -> B -> Prop) (body body' : A -> B -> M B)
    (l : list A) :
  (forall a acc acc' s s',
      VB acc acc' -> rel_state V s s' ->
      sim V VB (body a acc s) (body' a acc' s')) ->
  forall acc acc' s s',
    VB acc acc' -> rel_state V s s' ->
    sim V VB (for_each l body acc s) (for_each l body' acc' s').
Proof.
  intros Hbody. induction l as [|a l IH]; intros acc acc' s s' Hacc Hs;
    cbn [for_each].
  - by apply sim_ret.
  - eapply sim_bind; [by apply Hbody|]. intros. by apply IH.
Qed.

Lemma sim_find k s s' :
  rel_state V s s' ->
  sim V eq (find_dst_vertex_of k s) (find_dst_vertex_of k s').
Proof.
  intros Hs. split; [|done].
  unfold Builder.find_existing. by destruct Hs as [-> _].
Qed.

Lemma sim_insert_vertex pos pos' k s s' :
  V pos pos' -> rel_state V s s' ->
  sim V eq (insert_vertex pos k s) (insert_vertex pos' k s').
Proof.
  intros Hpos (Hmap & Hvs & Htri & Hfin). simpl.
  rewrite (Forall2_length _ _ _ Hvs). split; [done|].
  split; [|split; [|done]]; simpl.
  - by rewrite Hmap.
  - apply Forall2_app; [done|]. by repeat constructor.
Qed.

Lemma sim_insert_triangle A B C s s' :
  rel_state V s s' ->
  sim V eq (insert_triangle A B C s) (insert_triangle A B C s').
Proof.
  intros (Hmap & Hvs & Htri & Hfin). split; [done|].
  split; [done|]. split; [done|]. simpl. split; [by rewrite Htri|done].
Qed.

Lemma sim_at {A} (v : list A) i s s' :
  rel_state V s s' -> sim V eq (at_ v i s) (at_ v i s').
Proof. intros Hs. unfold at_. by destruct (v !! i). Qed.

Lemma sim_triangle_statement (l1 l2 l3 : list ptr) i j k s s' :
  rel_state V s s' ->
  sim V eq
    ((let* a := at_ l1 i in
      let* b := at_ l2 j in
      let* c := at_ l3 k in
      insert_triangle a b c) s)
    ((let* a := at_ l1 i in
      let* b := at_ l2 j in
      let* c := at_ l3 k in
      insert_triangle a b c) s').
Proof.
  intros Hs.
  eapply sim_bind; [by apply sim_at|]. intros a ? ? ? <- ?.
  eapply sim_bind; [by apply sim_at|]. intros b ? ? ? <- ?.
  eapply sim_bind; [by apply sim_at|]. intros c ? ? ? <- ?.
  by apply sim_insert_triangle.
Qed.

Lemma sim_insert_triangles vs es s s' :
  rel_state V s s' ->
  sim V eq (insert_triangles vs es s) (insert_triangles vs es s').
Proof.
  intros Hs. unfold insert_triangles.
  eapply sim_bind; [by apply sim_triangle_statement|]. intros [] ? ? ? _ ?.
  eapply sim_bind; [by apply sim_triangle_statement|]. intros [] ? ? ? _ ?.
  eapply sim_bind; [by apply sim_triangle_statement|]. intros [] ? ? ? _ ?.
  by apply sim_triangle_statement.
Qed.

End Sim.

(** Two source meshes with the same connectivity, and two weights, on which
    the rules are defined for the same arguments and give positions related
    by [V]. *)
Section TwoRuns.

Variable V : glm.vec3 -> glm.vec3 -> Prop.
Variables m m' : SubdivisionTriangleMesh.
Variables w w' : ieee754.float.

Hypothesis same_edges : edges m' = edges m.
Hypothesis same_faces : faces m' = faces m.
Hypothesis vertex_rules :
  forall v, option_Forall2 V (vertex_rule m v) (vertex_rule m' v).
Hypothesis edge_rules :
  forall e, option_Forall2 V (edge_rule m e w) (edge_rule m' e w').

Lemma arrow_same_edges p f : arrow m' p f = arrow m p f.
Proof. unfold arrow. by rewrite same_edges. Qed.

Lemma edge_key_same_edges e : edge_key m' e = edge_key m e.
Proof. unfold edge_key. by rewrite !arrow_same_edges. Qed.

Lemma option_Forall2_eq_refl {A} (o : option A) : option_Forall2 eq o o.
Proof. destruct o; by constructor. Qed.

Lemma sim_vertex_loop_body v acc s s' :
  rel_state V s s' ->
  sim V eq (vertex_loop_body m v acc s) (vertex_loop_body m' v acc s').
Proof.
  intros Hs. unfold vertex_loop_body.
  eapply sim_bind; [by apply sim_find|]. intros p ? t t' <- Ht.
  destruct p as [i|]; [by apply sim_ret|].
  eapply sim_bind; [by apply sim_defined|]. intros pos pos' ? ? Hpos ?.
  eapply sim_bind; [by apply sim_insert_vertex|]. intros q ? ? ? <- ?.
  by apply sim_ret.
Qed.

Lemma sim_edge_loop_body e acc s s' :
  rel_state V s s' ->
  sim V eq (edge_loop_body m w e acc s) (edge_loop_body m' w' e acc s').
Proof.
  intros Hs. unfold edge_loop_body. rewrite edge_key_same_edges.
  eapply sim_bind; [apply sim_defined; [apply option_Forall2_eq_refl|done]|].
  intros k ? ? ? <- ?.
  eapply sim_bind; [by apply sim_find|]. intros p ? t t' <- Ht.
  destruct p as [i|]; [by apply sim_ret|].
  eapply sim_bind; [by apply sim_defined|]. intros pos pos' ? ? Hpos ?.
  eapply sim_bind; [by apply sim_insert_vertex|]. intros q ? ? ? <- ?.
  by apply sim_ret.
Qed.

Lemma sim_face_vertices f s s' :
  rel_state V s s' ->
  sim V eq (face_vertices m f s) (face_vertices m' f s').
Proof.
  intros Hs. unfold face_vertices. rewrite !arrow_same_edges.
  do 3 (eapply sim_bind;
        [apply sim_defined; [apply option_Forall2_eq_refl|eassumption]|];
        intros ? ? ? ? <- ?).
  by apply sim_ret.
Qed.

Lemma sim_face_edges f s s' :
  rel_state V s s' ->
  sim V eq (face_edges m f s) (face_edges m' f s').
Proof.
  intros Hs. unfold face_edges. rewrite !arrow_same_edges.
  do 2 (eapply sim_bind;
        [apply sim_defined; [apply option_Forall2_eq_refl|eassumption]|];
        intros ? ? ? ? <- ?).
  by apply sim_ret.
Qed.

Lemma sim_compute_vertices f s s' :
  rel_state V s s' ->
  sim V eq (compute_vertices m w f s) (compute_vertices m' w' f s').
Proof.
  intros Hs. unfold compute_vertices.
  eapply sim_bind; [by apply sim_face_vertices|]. intros fvs ? ? ? <- ?.
  eapply (sim_bind V eq).
  { apply sim_for_each; [|done..]. intros ? ? ? ? ? <- ?.
    by apply sim_vertex_loop_body. }
  intros vs ? ? ? <- ?.
  eapply sim_bind; [by apply sim_face_edges|]. intros fes ? ? ? <- ?.
  eapply (sim_bind V eq).
  { apply sim_for_each; [|done..]. intros ? ? ? ? ? <- ?.
    by apply sim_edge_loop_body. }
  intros es ? ? ? <- ?. by apply sim_ret.
Qed.

Lemma sim_face_loop_body f s s' :
  rel_state V s s' ->
  sim V eq (face_loop_body m w f tt s) (face_loop_body m' w' f tt s').
Proof.
  intros Hs. unfold face_loop_body.
  eapply sim_bind; [by apply sim_compute_vertices|]. intros vs ? ? ? <- ?.
  by apply sim_insert_triangles.
Qed.

Lemma rel_state_init : rel_state V init init.
Proof. repeat split. constructor. Qed.

(** The two runs end in states with the same mapping, related vertices and
    the same triangles, and one is defined when the other is; the builder's
    expectations and the checker's verdicts may differ. *)
Lemma sim_run (closed closed' : bool) (ok ok' : DstMesh -> bool) :
  (from_src (bld (final_state
     (butterfly_subdivision m w closed ok empty_mesh))) =
   from_src (bld (final_state
     (butterfly_subdivision m' w' closed' ok' empty_mesh))) /\
   Forall2 (rel_vertex V)
     (dst_vertices (mesh (bld (final_state
        (butterfly_subdivision m w closed ok empty_mesh)))))
     (dst_vertices (mesh (bld (final_state
        (butterfly_subdivision m' w' closed' ok' empty_mesh))))) /\
   dst_triangles (mesh (bld (final_state
     (butterfly_subdivision m w closed ok empty_mesh)))) =
   dst_triangles (mesh (bld (final_state
     (butterfly_subdivision m' w' closed' ok' empty_mesh))))) /\
  (is_defined (butterfly_subdivision m w closed ok empty_mesh) <->
   is_defined (butterfly_subdivision m' w' closed' ok' empty_mesh)).
Proof.
  assert (sim V eq (for_each (faces m) (face_loop_body m w) tt init)
                   (for_each (faces m') (face_loop_body m' w') tt init)) as H.
  { rewrite same_faces. apply sim_for_each; [|done|apply rel_state_init].
    intros f [] ? ? ? _ ?. by apply sim_face_loop_body. }
  destruct (for_each (faces m) (face_loop_body m w) tt init)
    as [[] s|x s|s] eqn:E,
    (for_each (faces m') (face_loop_body m' w') tt init)
    as [[] s'|x' s'|s'] eqn:E'; try done.
  - destruct H as [_ (Hmap & Hvs & Htri & Hfin)].
    rewrite (run_after_the_loop _ _ _ _ _ E),
      (run_after_the_loop _ _ _ _ _ E'), !after_the_loop.
    destruct (Builder.pairable closed _), (Builder.pairable closed' _);
      repeat match goal with
             | |- context [if ?b then _ else _] => destruct b
             end;
      repeat split; done.
  - destruct H as [_ (Hmap & Hvs & Htri & Hfin)].
    rewrite !run_stops_with_the_loop, E, E' by (by rewrite ?E, ?E'). done.
  - destruct H as (Hmap & Hvs & Htri & Hfin).
    rewrite !run_stops_with_the_loop, E, E' by (by rewrite ?E, ?E'). done.
Qed.

End TwoRuns.

(** ** What does not depend on the weight *)

Lemma rel_vertex_sources V (l l' : list DstVertex) :
  Forall2 (rel_vertex V) l l' -> source <$> l = source <$> l'.
Proof.
  induction 1 as [|d d' l l' [Hsrc _] _ IH]; [done|].
  rewrite !fmap_cons. by rewrite Hsrc, IH.
Qed.

(** X8.  The weight changes positions only: for two weights, the runs on the
    same source mesh are defined together, and their destination meshes have
    the same triangles and the same back-references, vertex by vertex. *)
Theorem connectivity_independent_of_weight (m : SubdivisionTriangleMesh)
    (w w' : ieee754.float) (closed closed' : bool)
    (ok ok' : DstMesh -> bool) :
  source <$> dst_vertices (mesh (bld
    (final_state (butterfly_subdivision m w closed ok empty_mesh)))) =
  source <$> dst_vertices (mesh (bld
    (final_state (butterfly_subdivision m w' closed' ok' empty_mesh)))) /\
  dst_triangles (mesh (bld
    (final_state (butterfly_subdivision m w closed ok empty_mesh)))) =
  dst_triangles (mesh (bld
    (final_state (butterfly_subdivision m w' closed' ok' empty_mesh)))) /\
  (is_defined (butterfly_subdivision m w closed ok empty_mesh) <->
   is_defined (butterfly_subdivision m w' closed' ok' empty_mesh)).
Proof.
  destruct (sim_run (fun _ _ => True) m m w w' eq_refl eq_refl)
    with closed closed' ok ok' as [(_ & Hvs & Htri) Hdef].
  - intros v. by destruct (vertex_rule m v); constructor.
  - intros e. rewrite !edge_rule_stencil.
    destruct (stencil_points m e) as [ps|] eqn:H; [|constructor].
    destruct (stencil_points_eight _ _ _ H)
      as (p0 & p1 & p2 & p3 & p4 & p5 & p6 & p7 & ->).
    by constructor.
  - split; [by eapply rel_vertex_sources|done].
Qed.

(** ** What depends on the connectivity of the source mesh only *)

Section SameConnectivity.

Variables m m' : SubdivisionTriangleMesh.

Hypothesis same_edges : edges m' = edges m.
Hypothesis same_count : length (vertices m') = length (vertices m).

Lemma position_of_same_count v :
  is_Some (position_of m v) <-> is_Some (position_of m' v).
Proof.
  unfold position_of, deref. destruct v as [i|]; simpl.
  - rewrite !fmap_is_Some, !lookup_lt_is_Some. by rewrite same_count.
  - done.
Qed.

Lemma walk_same_edges links e : walk m' links e = walk m links e.
Proof.
  revert e. induction links as [|l links IH]; intros e; [done|].
  simpl. rewrite same_edges.
  destruct (deref (edges m) e); simpl; [apply IH|done].
Qed.

Lemma stencil_points_same_connectivity e :
  is_Some (stencil_points m e) <-> is_Some (stencil_points m' e).
Proof.
  unfold stencil_points. rewrite !mapM_is_Some.
  apply Forall_iff. intros path.
  unfold vertex_at, compose. cbn beta. rewrite walk_same_edges, same_edges.
  destruct (walk m path.1 e) as [e'|]; simpl; [|done].
  destruct (deref (edges m) e') as [E|]; simpl; [|done].
  apply position_of_same_count.
Qed.

Lemma edge_rule_same_connectivity e w w' :
  option_Forall2 (fun _ _ => True) (edge_rule m e w) (edge_rule m' e w').
Proof.
  pose proof (stencil_points_same_connectivity e) as Hiff.
  rewrite !edge_rule_stencil.
  destruct (stencil_points m e) as [ps|] eqn:H,
           (stencil_points m' e) as [ps'|] eqn:H'.
  - destruct (stencil_points_eight _ _ _ H)
      as (p0 & p1 & p2 & p3 & p4 & p5 & p6 & p7 & ->).
    destruct (stencil_points_eight _ _ _ H')
      as (q0 & q1 & q2 & q3 & q4 & q5 & q6 & q7 & ->).
    by constructor.
  - by destruct (proj1 Hiff).
  - by destruct (proj2 Hiff).
  - constructor.
Qed.

Lemma vertex_rule_same_connectivity v :
  option_Forall2 (fun _ _ => True) (vertex_rule m v) (vertex_rule m' v).
Proof.
  pose proof (position_of_same_count v) as Hiff.
  rewrite !vertex_rule_position.
  destruct (position_of m v), (position_of m' v); try by constructor.
  - by destruct (proj1 Hiff).
  - by destruct (proj2 Hiff).
Qed.

End SameConnectivity.

(** X9.  The connectivity of the refined mesh depends on the connectivity of
    the source mesh only: two source meshes with the same half-edges and
    faces and with as many vertices, whatever their positions, and any two
    weights, give runs that are defined together, with the same triangles and
    the same back-references, vertex by vertex. *)
Theorem connectivity_independent_of_positions
    (m m' : SubdivisionTriangleMesh) (w w' : ieee754.float)
    (closed closed' : bool) (ok ok' : DstMesh -> bool) :
  edges m' = edges m -> faces m' = faces m ->
  length (vertices m') = length (vertices m) ->
  source <$> dst_vertices (mesh (bld
    (final_state (butterfly_subdivision m w closed ok empty_mesh)))) =
  source <$> dst_vertices (mesh (bld
    (final_state (butterfly_subdivision m' w' closed' ok' empty_mesh)))) /\
  dst_triangles (mesh (bld
    (final_state (butterfly_subdivision m w closed ok empty_mesh)))) =
  dst_triangles (mesh (bld
    (final_state (butterfly_subdivision m' w' closed' ok' empty_mesh)))) /\
  (is_defined (butterfly_subdivision m w closed ok empty_mesh) <->
   is_defined (butterfly_subdivision m' w' closed' ok' empty_mesh)).
Proof.
  intros He Hf Hn.
  destruct (sim_run (fun _ _ => True) m m' w w' He Hf)
    with closed closed' ok ok' as [(_ & Hvs & Htri) Hdef].
  - intros v. by apply vertex_rule_same_connectivity.
  - intros e. by apply edge_rule_same_connectivity.
  - split; [by eapply rel_vertex_sources|done].
Qed.

(** ** Weight zero *)

Lemma position_of_vertex m v p :
  position_of m v = Some p ->
  exists vert, vert ∈ vertices m /\ position vert = p.
Proof.
  unfold position_of, deref. intros (vert & H & ->)%fmap_Some.
  destruct v as [i|]; [|done]. simpl in H.
  exists vert. split; [by eapply list_elem_of_lookup_2|done].
Qed.

Lemma stencil_points_of_vertices m e ps :
  stencil_points m e = Some ps ->
  Forall (fun p => exists vert, vert ∈ vertices m /\ position vert = p) ps.
Proof.
  unfold stencil_points. intros H%mapM_Some.
  induction H as [|path p paths ps Hp _ IH]; constructor; [|done].
  apply bind_Some in Hp as (v & _ & Hp). by eapply position_of_vertex.
Qed.

Lemma stencil_points_endpoints m e E p0 p1 rest :
  deref (edges m) e = Some E ->
  stencil_points m e = Some (p0 :: p1 :: rest) ->
  position_of m (start E) = Some p0 /\ position_of m (end_ E) = Some p1.
Proof.
  intros HE H. unfold stencil_points, stencil_paths in H. cbn [mapM] in H.
  apply bind_Some in H as (q0 & H0 & H).
  apply bind_Some in H as (qs & H & [= -> ->]).
  apply bind_Some in H as (q1 & H1 & H).
  apply bind_Some in H as (qs' & _ & [= -> _]).
  unfold vertex_at in H0, H1. simpl in H0, H1. rewrite HE in H0, H1. done.
Qed.

Lemma midpoint_comm (a b : glm.vec3) : midpoint a b = midpoint b a.
Proof.
  unfold midpoint.
  by rewrite (float_midpoint_comm (glm.x a)), (float_midpoint_comm (glm.y a)),
    (float_midpoint_comm (glm.z a)).
Qed.

(** X11.  With a zero weight, on a source mesh none of whose coordinates
    overflows when doubled, the refinement puts every destination vertex
    filed under an unordered edge at the rounded midpoint of the edge's two
    endpoints: on each axis, at the number [(float)(xa * 0.5 + xb * 0.5)], in
    every run. *)
Theorem zero_weight_gives_midpoints (m : SubdivisionTriangleMesh)
    (closed : bool) (ok : DstMesh -> bool) (d : DstVertex) (a b : ptr) :
  Forall (fun vert => on_axes (fun c => doubles (c (position vert))))
         (vertices m) ->
  d ∈ dst_vertices (mesh (bld
        (final_state
           (butterfly_subdivision m ieee754.zero closed ok empty_mesh)))) ->
  source d = KEdge a b ->
  exists pa pb,
    position_of m a = Some pa /\ position_of m b = Some pb /\
    dst_position d ≃ midpoint pa pb.
Proof.
  intros Hall Hd Hsrc.
  destruct (run_rsteps m ieee754.zero closed ok) as (s & Hs & Ev).
  rewrite Ev in Hd.
  apply (proj1 (Forall_forall _ _)
           (rsteps_placed m ieee754.zero _ _ _ Hs (Forall_nil_2 _))) in Hd.
  destruct Hd as [(f & v & _ & _ & Hv & _)|(f & e & _ & _ & Hk & He)];
    [congruence|].
  rewrite Hsrc in Hk. unfold edge_key in Hk. rewrite !arrow_field in Hk.
  destruct (deref (edges m) e) as [E|] eqn:HE; [|done]. simpl in Hk.
  destruct (edge_rule m e ieee754.zero) as [r|] eqn:Hr; [|done].
  injection He as <-.
  assert (is_Some (stencil_points m e)) as [ps H].
  { rewrite edge_rule_stencil in Hr.
    by destruct (stencil_points m e); [eexists|]. }
  pose proof (stencil_points_of_vertices _ _ _ H) as Hps.
  destruct (stencil_points_eight _ _ _ H)
    as (p0 & p1 & p2 & p3 & p4 & p5 & p6 & p7 & ->).
  destruct (stencil_points_endpoints _ _ _ _ _ _ HE H) as [H0 H1].
  assert (Forall (fun p => on_axes (fun c => doubles (c p)))
            [p0; p1; p2; p3; p4; p5; p6; p7]) as Hfin.
  { eapply Forall_impl; [exact Hps|]. intros p (vert & Hin & <-).
    by apply (proj1 (Forall_forall _ _) Hall). }
  repeat match goal with
         | H : Forall _ (_ :: _) |- _ =>
             apply Forall_cons in H as [(? & ? & ?) H]
         end.
  assert (r ≃ midpoint p0 p1) as Hmid.
  { destruct (zero_weight_midpoint m e ieee754.zero r _ _ _ _ _ _ _ _
                eq_refl H Hr) as (Hx & Hy & Hz).
    unfold no_overflow in *.
    split; [|split]; [apply Hx|apply Hy|apply Hz];
      repeat apply conj; auto using doubles_finite. }
  unfold unordered in Hk. case_decide; injection Hk as <- <-.
  - by exists p0, p1.
  - exists p1, p0. split; [done|]. split; [done|]. by rewrite midpoint_comm.
Qed.

(** * Concrete runs for the further properties *)

Lemma destination_vertices_placed_by_rules_witness :
  placed_by_rules unit_tetrahedron sixteenth (faces unit_tetrahedron)
    (corner_vertex (at_integers 1 1 1) 0).
Proof.
  apply (destination_vertices_placed_by_rules unit_tetrahedron sixteenth
           true accept).
  vm_compute. left.
Defined.

Lemma destination_vertices_are_the_keys_witness :
  length (dst_vertices (mesh (bld (final_state
    (butterfly_subdivision unit_tetrahedron sixteenth true accept
       empty_mesh))))) =
  length (mesh_keys unit_tetrahedron).
Proof.
  apply (destination_vertices_are_the_keys unit_tetrahedron sixteenth true
           accept).
  by vm_compute.
Defined.

Lemma triangles_in_range_witness :
  Forall (in_range (length (dst_vertices (mesh (bld (final_state
            (butterfly_subdivision unit_tetrahedron sixteenth true accept
               empty_mesh)))))))
    (dst_triangles (mesh (bld (final_state
       (butterfly_subdivision unit_tetrahedron sixteenth true accept
          empty_mesh))))).
Proof.
  apply (triangles_in_range unit_tetrahedron sixteenth true accept).
  by vm_compute.
Defined.

Lemma children_have_distinct_corners_witness :
  Forall distinct_corners
    (children unit_tetrahedron
       (final_state
          (butterfly_subdivision unit_tetrahedron sixteenth true accept
             empty_mesh))
       {| edge := Some 0 |}).
Proof.
  apply (children_have_distinct_corners unit_tetrahedron sixteenth true accept
           {| edge := Some 0 |}
           (default [] (face_keys unit_tetrahedron {| edge := Some 0 |}))).
  - by vm_compute.
  - left.
  - reflexivity.
  - apply (bool_decide_unpack _). by vm_compute.
Defined.

Lemma connectivity_independent_of_positions_witness :
  dst_triangles (mesh (bld (final_state
    (butterfly_subdivision unit_tetrahedron sixteenth true accept
       empty_mesh)))) =
  dst_triangles (mesh (bld (final_state
    (butterfly_subdivision thin_tetrahedron ieee754.zero true accept
       empty_mesh)))).
Proof.
  apply (proj1 (proj2
           (connectivity_independent_of_positions unit_tetrahedron
              thin_tetrahedron sixteenth ieee754.zero true true accept accept
              eq_refl eq_refl eq_refl))).
Defined.

Lemma zero_weight_gives_midpoints_witness :
  exists pa pb,
    position_of unit_tetrahedron (Some 0) = Some pa /\
    position_of unit_tetrahedron (Some 1) = Some pb /\
    dst_position
      (default (corner_vertex glm.zero 0)
         (dst_vertices (mesh (bld (final_state
            (butterfly_subdivision unit_tetrahedron ieee754.zero true accept
               empty_mesh))))
          !! 3))
    ≃ midpoint pa pb.
Proof.
  apply (zero_weight_gives_midpoints unit_tetrahedron true accept).
  - repeat constructor.
  - vm_compute. do 3 right. left.
  - by vm_compute.
Defined.
